(** * StringHashTable: a separately-chained, string-keyed hash table

    Shallow embedding of [stringhashtable.c] and proofs about it.

    Conventions of the embedding.
    - [unsigned int] is 32 bits wide: a value is a [Z] in [0, 2^32) and every
      arithmetic result is reduced with [to_uint].
    - A [char*] argument is an [option string]: [None] is the NULL pointer,
      [Some s] a buffer whose bytes are the characters of [s] followed by a
      terminating nul. A nul inside [s] ends the C string early, exactly as
      the C library functions see it.
    - Whether plain [char] is signed is left to the platform by the C
      standard; it is the section variable [char_is_signed].
    - A chain of [hashtable_entry] nodes linked by [next] is the list of its
      entries, head first; the NULL pointer is the empty list. The bucket
      array [table] is the list of its chains.
    - A [hashtable*] argument is an [option hashtable]; an operation returns
      the state of the pointed table after the call together with the C
      return value.
    - [malloc] is taken to succeed (on failure the program prints a message
      and exits), and keys are taken to fit the 65-byte buffer that
      [hashtable_newentry] allocates (see [key_fits]). *)

From Stdlib Require Import ZArith String Ascii Lia.
From stdpp Require Import base numbers list.

Local Open Scope Z_scope.

(** ** Machine integers *)

Definition UINT_MAX : Z := 4294967295.

(** Conversion to [unsigned int]: reduction modulo 2^32. *)
Definition to_uint (z : Z) : Z := z mod (UINT_MAX + 1).

(** Conversion to [int] (two's complement). *)
Definition to_int (z : Z) : Z :=
  let u := to_uint z in if u <? 2147483648 then u else u - (UINT_MAX + 1).

Definition is_uint (z : Z) : Prop := 0 <= z <= UINT_MAX.

(** ** Characters and C strings *)

(** The byte stored in a character, in [0, 255]. *)
Definition byte_of (c : ascii) : Z := Z.of_N (N_of_ascii c).

(** The loop test [ch[0] != 0] fails exactly on the nul byte. *)
Definition is_nul (c : ascii) : bool := byte_of c =? 0.

(** [strcmp]: the difference of the first pair of bytes that differ, read as
    [unsigned char]; the end of either buffer reads as the terminating nul. *)
Fixpoint strcmp (s1 s2 : string) : Z :=
  match s1, s2 with
  | EmptyString, EmptyString => 0
  | EmptyString, String c2 _ => 0 - byte_of c2
  | String c1 _, EmptyString => byte_of c1 - 0
  | String c1 r1, String c2 r2 =>
      if byte_of c1 =? byte_of c2
      then (if is_nul c1 then 0 else strcmp r1 r2)
      else byte_of c1 - byte_of c2
  end.

(** [strcpy(dest, src)]: the content of [dest] afterwards, the characters of
    [src] up to its terminating nul. *)
Fixpoint strcpy (src : string) : string :=
  match src with
  | EmptyString => EmptyString
  | String c rest => if is_nul c then EmptyString else String c (strcpy rest)
  end.

(** [strlen]. *)
Definition strlen (s : string) : nat := String.length (strcpy s).

(** A key fits the [malloc(65)] buffer of [hashtable_newentry]: at most 64
    characters before the nul. Longer keys overflow the buffer in the C
    program, which this embedding does not describe. *)
Definition key_fits (k : string) : Prop := (strlen k <= 64)%nat.

(** The characters of the C string [s] are plain ASCII (below 128). *)
Fixpoint ascii_only (s : string) : Prop :=
  match s with
  | EmptyString => True
  | String c rest => is_nul c = true \/ (byte_of c < 128 /\ ascii_only rest)
  end.

Section StringHashTable.

(** Signedness of plain [char] on the target platform. *)
Variable char_is_signed : bool.

(** The cast [(int) ch[0]]: the value of a character as an [int]. *)
Definition char_to_int (c : ascii) : Z :=
  if char_is_signed && (128 <=? byte_of c) then byte_of c - 256 else byte_of c.

(** ** The hash function *)

(** One iteration of the loop body:
    [hash = ((int) ch[0] + (hash << 5) + hash) % hashtable_size], the sum
    being computed on [unsigned int]. *)
Definition hash_step (hashtable_size hash : Z) (c : ascii) : Z :=
  to_uint (to_uint (to_uint (char_to_int c) + to_uint (Z.shiftl hash 5)) + hash)
    mod hashtable_size.

(** The loop [for (ch = key; ch[0] != 0; ch++)]. *)
Fixpoint gethash_loop (hashtable_size : Z) (ch : string) (hash : Z) : Z :=
  match ch with
  | EmptyString => hash
  | String c rest =>
      if is_nul c then hash
      else gethash_loop hashtable_size rest (hash_step hashtable_size hash c)
  end.

Definition hashtable_gethash (hashtable_size : Z) (k : string) : Z :=
  gethash_loop hashtable_size k 0.

(** The fold the specification describes, over unbounded integers:
    [h = (c + h*33) mod m] for each character, [c] its ordinal value. *)
Fixpoint horner_loop (m : Z) (s : string) (h : Z) : Z :=
  match s with
  | EmptyString => h
  | String c rest =>
      if is_nul c then h else horner_loop m rest ((byte_of c + h * 33) mod m)
  end.

Definition horner_hash (m : Z) (s : string) : Z := horner_loop m s 0.

(** ** Data model *)

(** [struct hashtable_entry_t]; the [next] pointer is the rest of the list
    the entry sits in. *)
Record hashtable_entry : Type := mk_entry {
  key : string;
  val : Z
}.

(** A chain: the entries reachable from a bucket's head pointer. *)
Abbreviation chain := (list hashtable_entry).

(** [struct hashtable_t]. *)
Record hashtable : Type := mk_hashtable {
  size : Z;
  different_entries : Z;
  collisions : Z;
  table : list chain
}.

(** [htable->table[hash]] as an rvalue. On a well-formed table
    ([table_ok] below) the hash is below [size] and the index is inside the
    array; outside it, where the C program has no defined behaviour, the
    embedding reads an empty chain and [table_set] stores nothing. *)
Definition table_get (tbl : list chain) (hash : Z) : chain :=
  default [] (tbl !! Z.to_nat hash).

(** [htable->table[hash] = c]. *)
Definition table_set (tbl : list chain) (hash : Z) (c : chain) : list chain :=
  <[Z.to_nat hash := c]> tbl.

(** The chain a possibly-NULL entry pointer heads when the entry's [next]
    is NULL. *)
Definition chain_of (e : option hashtable_entry) : chain :=
  match e with Some x => [x] | None => [] end.

(** ** Operations *)

Definition hashtable_newhashtable (sz : Z) : option hashtable :=
  if sz <? 2 then None
  else Some {| size := sz;
               different_entries := 0;
               collisions := 0;
               table := replicate (Z.to_nat sz) [] |}.

Definition hashtable_newentry (k : option string) (v : Z)
  : option hashtable_entry :=
  match k with
  | None => None
  | Some s => Some {| key := strcpy s; val := v |}
  end.

(** The search loop of [hashtable_insert] started on the node [current]
    whose successors are [next], followed by the store it leads to: either
    [current_entry->val = val] on the node found, or
    [current_entry->next = hashtable_newentry(key, val)] on the last node.
    Returns the chain afterwards, the [found] flag and the entry returned. *)
Fixpoint insert_walk (current : hashtable_entry) (next : chain)
    (k : string) (v : Z) : chain * bool * option hashtable_entry :=
  if strcmp (key current) k =? 0 then
    let updated := {| key := key current; val := v |} in
    (updated :: next, true, Some updated)
  else
    match next with
    | [] =>
        let new_entry := hashtable_newentry (Some k) v in
        (current :: chain_of new_entry, false, new_entry)
    | n :: rest =>
        let '(c, found, r) := insert_walk n rest k v in
        (current :: c, found, r)
    end.

(** [hashtable_insert] past its NULL checks. *)
Definition insert_nonnull (htable : hashtable) (k : string) (v : Z)
  : hashtable * option hashtable_entry :=
  let hash := hashtable_gethash (size htable) k in
  match table_get (table htable) hash with
  | [] =>
      let new_entry := hashtable_newentry (Some k) v in
      ({| size := size htable;
          different_entries := to_uint (different_entries htable + 1);
          collisions := collisions htable;
          table := table_set (table htable) hash (chain_of new_entry) |},
       new_entry)
  | current :: next =>
      let '(c, found, r) := insert_walk current next k v in
      if found : bool then
        ({| size := size htable;
            different_entries := different_entries htable;
            collisions := collisions htable;
            table := table_set (table htable) hash c |}, r)
      else
        ({| size := size htable;
            different_entries := different_entries htable;
            collisions := to_uint (collisions htable + 1);
            table := table_set (table htable) hash c |}, r)
  end.

Definition hashtable_insert (htable : option hashtable) (k : option string)
    (v : Z) : option hashtable * option hashtable_entry :=
  match htable, k with
  | Some ht, Some s =>
      let '(ht', r) := insert_nonnull ht s v in (Some ht', r)
  | _, _ => (htable, None)
  end.

(** The search loop of [hashtable_delete] once it has left the head, on the
    nodes after [previous_entry]: the entry found and the successors of
    [previous_entry] after [previous_entry->next = current_entry->next]. *)
Fixpoint delete_walk (current : chain) (k : string)
  : option (hashtable_entry * chain) :=
  match current with
  | [] => None
  | e :: next =>
      if strcmp (key e) k =? 0 then Some (e, next)
      else
        match delete_walk next k with
        | Some (found, next') => Some (found, e :: next')
        | None => None
        end
  end.

(** [int val = current_entry->val; ... return val;] in a function returning
    [unsigned int]. *)
Definition delete_result (e : hashtable_entry) : Z := to_uint (to_int (val e)).

(** [hashtable_delete] past its NULL checks. *)
Definition delete_nonnull (htable : hashtable) (k : string) : hashtable * Z :=
  let hash := hashtable_gethash (size htable) k in
  match table_get (table htable) hash with
  | [] => (htable, 0)
  | head :: next =>
      if strcmp (key head) k =? 0 then
        match next with
        | [] =>
            ({| size := size htable;
                different_entries := to_uint (different_entries htable - 1);
                collisions := collisions htable;
                table := table_set (table htable) hash [] |},
             delete_result head)
        | _ :: _ =>
            ({| size := size htable;
                different_entries := different_entries htable;
                collisions := to_uint (collisions htable - 1);
                table := table_set (table htable) hash next |},
             delete_result head)
        end
      else
        match delete_walk next k with
        | Some (found, next') =>
            ({| size := size htable;
                different_entries := different_entries htable;
                collisions := to_uint (collisions htable - 1);
                table := table_set (table htable) hash (head :: next') |},
             delete_result found)
        | None => (htable, 0)
        end
  end.

Definition hashtable_delete (htable : option hashtable) (k : option string)
  : option hashtable * Z :=
  match htable, k with
  | Some ht, Some s =>
      let '(ht', r) := delete_nonnull ht s in (Some ht', r)
  | _, _ => (htable, 0)
  end.

(** The loop of [hashtable_get]. *)
Fixpoint get_walk (current : chain) (k : string) : option hashtable_entry :=
  match current with
  | [] => None
  | e :: next => if strcmp (key e) k =? 0 then Some e else get_walk next k
  end.

(** [hashtable_get] writes nothing, so it is a function of the state. *)
Definition hashtable_get (htable : option hashtable) (k : option string)
  : option hashtable_entry :=
  match htable, k with
  | Some ht, Some s =>
      get_walk (table_get (table ht) (hashtable_gethash (size ht) s)) s
  | _, _ => None
  end.

(** ** Sequences of operations and reachable tables *)

Inductive operation : Type :=
| Insert (k : string) (v : Z)
| Delete (k : string).

(** An operation a caller may issue: the key fits its buffer and the value
    is an [unsigned int]. *)
Definition operation_ok (o : operation) : Prop :=
  match o with
  | Insert k v => key_fits k /\ is_uint v
  | Delete k => True
  end.

Definition run_operation (htable : option hashtable) (o : operation)
  : option hashtable :=
  match o with
  | Insert k v => fst (hashtable_insert htable (Some k) v)
  | Delete k => fst (hashtable_delete htable (Some k))
  end.

Definition run_operations (htable : option hashtable) (os : list operation)
  : option hashtable :=
  foldl run_operation htable os.

(** Tables a program can hold: created by [hashtable_newhashtable] and then
    changed only through [hashtable_insert] and [hashtable_delete] with
    non-NULL keys. *)
Inductive reachable : hashtable -> Prop :=
| reachable_new sz ht :
    is_uint sz ->
    hashtable_newhashtable sz = Some ht ->
    reachable ht
| reachable_insert ht k v ht' :
    reachable ht ->
    key_fits k -> is_uint v ->
    fst (hashtable_insert (Some ht) (Some k) v) = Some ht' ->
    reachable ht'
| reachable_delete ht k ht' :
    reachable ht ->
    fst (hashtable_delete (Some ht) (Some k)) = Some ht' ->
    reachable ht'.

(** ** Measures and invariants of a table *)

(** Number of entries across all buckets. *)
Definition total_entries (tbl : list chain) : nat :=
  sum_list_with length tbl.

Definition occupied (c : chain) : nat :=
  match c with [] => 0 | _ :: _ => 1 end.

(** Number of buckets holding at least one entry. *)
Definition nonempty_buckets (tbl : list chain) : nat :=
  sum_list_with occupied tbl.

(** The bucket array has [size] slots and [size] is a valid bucket count. *)
Definition table_ok (ht : hashtable) : Prop :=
  2 <= size ht <= UINT_MAX /\ length (table ht) = Z.to_nat (size ht).

(** The counters agree with the chains, as [unsigned int]s. *)
Definition counters_ok (ht : hashtable) : Prop :=
  different_entries ht = Z.of_nat (nonempty_buckets (table ht)) /\
  collisions ht =
    to_uint (Z.of_nat (total_entries (table ht))
             - Z.of_nat (nonempty_buckets (table ht))).

(** Every stored value is an [unsigned int]. *)
Definition values_ok (ht : hashtable) : Prop :=
  Forall (Forall (fun e => is_uint (val e))) (table ht).

(** [e] carries the key [k], as [strcmp] sees it. *)
Definition has_key (k : string) (e : hashtable_entry) : Prop :=
  strcmp (key e) k = 0.

(** The keys stored in a table, as C strings. *)
Definition stored_keys (tbl : list chain) : list string :=
  (fun e => strcpy (key e)) <$> mjoin tbl.

(** [e] is the first entry of chain [c] carrying key [k]: [pre] are the
    entries before it and [post] those after it. *)
Definition first_match (k : string) (c pre : chain) (e : hashtable_entry)
    (post : chain) : Prop :=
  c = pre ++ e :: post /\ Forall (fun x => ~ has_key k x) pre /\ has_key k e.

(** No entry of chain [c] carries key [k]. *)
Definition no_match (k : string) (c : chain) : Prop :=
  Forall (fun x => ~ has_key k x) c.

(** The bucket array [tbl'] is [tbl] with the chain at index [i] replaced by
    [c'] and every other bucket left as it was. *)
Definition bucket_replaced (tbl tbl' : list chain) (i : nat) (c' : chain)
  : Prop :=
  length tbl' = length tbl /\
  tbl' !! i = Some c' /\
  forall j, j <> i -> tbl' !! j = tbl !! j.

(** The operations inserting the pairs [kvs], in order. *)
Definition inserts (kvs : list (string * Z)) : list operation :=
  (fun kv => Insert kv.1 kv.2) <$> kvs.

(** The keys of [kvs], as C strings. *)
Definition keys_of (kvs : list (string * Z)) : list string :=
  (fun kv => strcpy kv.1) <$> kvs.

(** ** Concrete tables used to exercise the theorems *)

(** The pairs inserted by the program's own test [test_12_strings], in
    order. *)
Definition test_12_strings : list (string * Z) :=
  [("8ct4xaucod", 0); ("7i2pefipwc", 0); ("mmnoy7c6yq", 0);
   ("ouam4phm2c", 0); ("e2xztziqtj", 0); ("wrrw5arl6d", 0);
   ("7lc5pgl8kd", 0); ("93i5i8sx17", 0); ("6kkd8e0zq1", 0);
   ("yeqmy6bjmk", 0); ("hn1gybiuy6", 0); ("5wr2vyui8t", 0)]%string.

(** The table of two buckets obtained by inserting [b], [a] and [c] with
    values 2, 1 and 3: [b] hashes to bucket 0, [a] and [c] to bucket 1. *)
Definition example_table : hashtable :=
  {| size := 2;
     different_entries := 2;
     collisions := 1;
     table := [[mk_entry "b" 2]; [mk_entry "a" 1; mk_entry "c" 3]] |}.

Definition example_operations : list operation :=
  [Insert "b" 2; Insert "a" 1; Insert "c" 3].

(** ** Where keys sit in a table built through the interface *)

(** Every entry stores a nul-free key that fits its buffer, sits in the
    bucket its key hashes to, and shares its key with no other entry of
    its chain. *)
Definition keys_ok (ht : hashtable) : Prop :=
  forall i c, table ht !! i = Some c ->
    Forall (fun e => strcpy (key e) = key e /\ key_fits (key e) /\
                     Z.to_nat (hashtable_gethash (size ht) (key e)) = i) c /\
    NoDup (key <$> c).

(** ** The pretty printer *)

(** What [hashtable_prettyprint] writes to the standard output, one
    constructor for each line, holding the arguments of the [printf] calls
    that make the line. *)
Inductive printed : Type :=
| NoTable
    (* "This hash table does not exist." *)
| NullLine (padding_size i : Z)
    (* "%*d --> NULL" with the width [padding_size] and the index [i] *)
| DotsLine (dots : Z)
    (* " [" followed by [dots] dots and "]" *)
| ChainLine (padding_size i : Z) (entries : list (string * Z))
    (* "%*d --> {(%s, %u), (%s, %u), ...}" for the entries of bucket [i] *)
| Trailer.
    (* the two newlines that end the listing *)

(** [strlen] of what [sprintf(size_str, "%u", n)] writes: the number of
    decimal digits of [n], at most 10 for an [unsigned int]. *)
Fixpoint decimal_digits_fuel (fuel : nat) (n : Z) : Z :=
  match fuel with
  | O => 1
  | S f => if n <? 10 then 1 else 1 + decimal_digits_fuel f (n / 10)
  end.

Definition decimal_digits (n : Z) : Z := decimal_digits_fuel 10 n.

(** [padding_size = strlen(size_str) + 1]. *)
Definition padding_of (sz : Z) : Z := to_uint (decimal_digits sz + 1).

(** The number of dots of a truncation line: three when
    [padding_size < 7], otherwise [padding_size - 3]. *)
Definition dots_of (padding_size : Z) : Z :=
  if padding_size <? 7 then 3 else to_uint (padding_size - 3).

(** The pairs printed for a chain, head first: [%s] prints the key up to
    its nul and [%u] the value. *)
Definition chain_text (c : chain) : list (string * Z) :=
  (fun e => (strcpy (key e), val e)) <$> c.

(** The loop [for (i = 0; i < htable->size; i++)] with [n] iterations
    left, in the state [i], [consecutive_null], [dots]. The count
    [consecutive_null] is only ever compared with 1. *)
Fixpoint prettyprint_loop (ht : hashtable) (padding_size : Z) (n : nat)
    (i consecutive_null : Z) (dots : bool) : list printed :=
  match n with
  | O => []
  | S n' =>
      match table_get (table ht) i with
      | [] =>
          let consecutive_null := consecutive_null + 1 in
          if (i =? 0) || (i =? to_uint (size ht - 1)) then
            NullLine padding_size i
            :: prettyprint_loop ht padding_size n' (i + 1) consecutive_null dots
          else if (consecutive_null =? 1)
                  || negb (match table_get (table ht) (i + 1) with
                           | [] => true | _ :: _ => false end) then
            NullLine padding_size i
            :: prettyprint_loop ht padding_size n' (i + 1) consecutive_null dots
          else if negb dots then
            DotsLine (dots_of padding_size)
            :: prettyprint_loop ht padding_size n' (i + 1) consecutive_null true
          else
            prettyprint_loop ht padding_size n' (i + 1) consecutive_null dots
      | e :: next =>
          ChainLine padding_size i (chain_text (e :: next))
          :: prettyprint_loop ht padding_size n' (i + 1) 0 false
      end
  end.

Definition hashtable_prettyprint (htable : option hashtable) : list printed :=
  match htable with
  | None => [NoTable]
  | Some ht =>
      prettyprint_loop ht (padding_of (size ht)) (Z.to_nat (size ht)) 0 0 false
      ++ [Trailer]
  end.

(** The entries a printed line shows. *)
Definition printed_entries (p : printed) : list (string * Z) :=
  match p with
  | ChainLine _ _ entries => entries
  | _ => []
  end.

(** Bucket [i] is left out of the listing: it is empty, it is neither
    the first nor the last bucket, and both its neighbours are empty. *)
Definition left_out (ht : hashtable) (i : Z) : Prop :=
  table_get (table ht) i = [] /\ i <> 0 /\ i <> to_uint (size ht - 1) /\
  table_get (table ht) (i - 1) = [] /\ table_get (table ht) (i + 1) = [].

(** ** Many distinct keys *)

(** A key for every positive number: its binary digits, lowest first,
    written with the letters [i] and [o] and closed by [h]. Different
    numbers give different keys, none holds a nul, and a number below 2^64
    gives a key of at most 64 characters. *)
Fixpoint key_of_pos (p : positive) : string :=
  match p with
  | xH => String "h"%char EmptyString
  | xO q => String "o"%char (key_of_pos q)
  | xI q => String "i"%char (key_of_pos q)
  end.

(** [n] pairs with pairwise distinct keys, all of value 0. *)
Definition many_pairs (n : nat) : list (string * Z) :=
  (fun j => (key_of_pos (Pos.of_succ_nat j), 0)) <$> seq 0 n.

(** A table of 16 buckets as [hashtable_newhashtable] returns it. *)
Definition fresh_table_16 : hashtable :=
  {| size := 16;
     different_entries := 0;
     collisions := 0;
     table := replicate 16 [] |}.

(** [example_operations] followed by the deletion of a stored key. *)
Definition example_operations_delete : list operation :=
  example_operations ++ [Delete "a"].

(** * Proofs *)

(** ** Machine integers *)

Lemma to_uint_range z : 0 <= to_uint z <= UINT_MAX.
Proof.
  unfold to_uint. change (UINT_MAX + 1) with 4294967296.
  pose proof (Z.mod_pos_bound z 4294967296 eq_refl). unfold UINT_MAX. lia.
Qed.

Lemma to_uint_id z : is_uint z -> to_uint z = z.
Proof. unfold is_uint, to_uint, UINT_MAX. intros H. apply Z.mod_small. lia. Qed.

Lemma to_uint_to_int z : is_uint z -> to_uint (to_int z) = z.
Proof.
  intros H. unfold to_int. rewrite (to_uint_id z H).
  destruct (z <? 2147483648); [by apply to_uint_id|].
  unfold to_uint, is_uint, UINT_MAX in *.
  replace (z - (4294967295 + 1)) with (z + (-1) * (4294967295 + 1)) by lia.
  rewrite Z.mod_add by lia. apply Z.mod_small. lia.
Qed.

(** ** Characters and C strings *)

Lemma byte_of_range c : 0 <= byte_of c <= 255.
Proof.
  unfold byte_of. pose proof (N_ascii_bounded c). lia.
Qed.

Lemma byte_of_inj c1 c2 : byte_of c1 = byte_of c2 -> c1 = c2.
Proof.
  unfold byte_of. intros H. apply N2Z.inj in H.
  rewrite <- (ascii_N_embedding c1), <- (ascii_N_embedding c2). by rewrite H.
Qed.

Lemma strcmp_zero s1 s2 : strcmp s1 s2 = 0 <-> strcpy s1 = strcpy s2.
Proof.
  revert s2. induction s1 as [|c1 r1 IH]; intros [|c2 r2]; simpl.
  - done.
  - unfold is_nul. destruct (Z.eqb_spec (byte_of c2) 0); split; (done || lia).
  - unfold is_nul. destruct (Z.eqb_spec (byte_of c1) 0); split; (done || lia).
  - unfold is_nul.
    destruct (Z.eqb_spec (byte_of c1) (byte_of c2)) as [E|E].
    + apply byte_of_inj in E as ->.
      destruct (Z.eqb_spec (byte_of c2) 0); [done|].
      rewrite IH. split; [by intros ->|congruence].
    + destruct (Z.eqb_spec (byte_of c1) 0), (Z.eqb_spec (byte_of c2) 0);
        split; try lia; try done; congruence.
Qed.

Lemma strcmp_refl s : strcmp s s = 0.
Proof. by apply strcmp_zero. Qed.

Lemma strcpy_idem s : strcpy (strcpy s) = strcpy s.
Proof.
  induction s as [|c r IH]; simpl; [done|].
  destruct (is_nul c) eqn:E; simpl; [done|]. by rewrite E, IH.
Qed.

Lemma strcmp_strcpy_l s k : strcmp (strcpy s) k = 0 <-> strcmp s k = 0.
Proof. by rewrite !strcmp_zero, strcpy_idem. Qed.

(** ** The hash function *)

Lemma hash_step_range m h c : 0 < m -> 0 <= hash_step m h c < m.
Proof. intros Hm. unfold hash_step. by apply Z.mod_pos_bound. Qed.

Lemma gethash_loop_range m s h :
  0 < m -> 0 <= h < m -> 0 <= gethash_loop m s h < m.
Proof.
  intros Hm. revert h. induction s as [|c r IH]; intros h Hh; simpl; [done|].
  destruct (is_nul c); [done|]. apply IH. by apply hash_step_range.
Qed.

Lemma hashtable_gethash_range m k : 0 < m -> 0 <= hashtable_gethash m k < m.
Proof. intros Hm. apply gethash_loop_range; lia. Qed.

Lemma gethash_loop_strcpy m s h :
  gethash_loop m (strcpy s) h = gethash_loop m s h.
Proof.
  revert h. induction s as [|c r IH]; intros h; simpl; [done|].
  destruct (is_nul c) eqn:E; simpl; [done|]. by rewrite E, IH.
Qed.

(** The three wrapped additions collapse into one reduction modulo 2^32. *)
Lemma hash_step_unfold m h c :
  hash_step m h c = to_uint (char_to_int c + 33 * h) mod m.
Proof.
  unfold hash_step, to_uint. rewrite Z.shiftl_mul_pow2 by lia.
  f_equal. rewrite Zplus_mod_idemp_l.
  rewrite <- Z.add_assoc, Zplus_mod_idemp_l.
  rewrite (Z.add_comm (_ mod _) h), Z.add_assoc, Zplus_mod_idemp_r.
  f_equal. lia.
Qed.

(** Without wrap-around, and on characters whose [int] value is their
    ordinal, one step is the step of the specification's fold. *)
Lemma hash_step_horner m h c :
  0 < m -> 33 * (m - 1) + 255 <= UINT_MAX -> 0 <= h < m ->
  char_to_int c = byte_of c ->
  hash_step m h c = (byte_of c + h * 33) mod m.
Proof.
  intros Hm Hb Hh Hc. rewrite hash_step_unfold, Hc.
  pose proof (byte_of_range c).
  rewrite to_uint_id; [f_equal; lia|]. unfold is_uint. nia.
Qed.

Lemma gethash_loop_horner m s h :
  0 < m -> 33 * (m - 1) + 255 <= UINT_MAX -> 0 <= h < m ->
  char_is_signed = false \/ ascii_only s ->
  gethash_loop m s h = horner_loop m s h.
Proof.
  intros Hm Hb. revert h. induction s as [|c r IH]; intros h Hh Hs; simpl; [done|].
  destruct (is_nul c) eqn:E; [done|].
  assert (char_to_int c = byte_of c) as Hc.
  { unfold char_to_int. destruct Hs as [->|[?|[? _]]]; [done|congruence|].
    replace (128 <=? byte_of c) with false by (symmetry; apply Z.leb_gt; lia).
    by rewrite andb_false_r. }
  rewrite hash_step_horner by done.
  apply IH; [by apply Z.mod_pos_bound|].
  destruct Hs as [?|[?|[_ ?]]]; [by left|congruence|by right].
Qed.

(** ** The bucket array *)

Lemma table_split (tbl : list chain) hash :
  (Z.to_nat hash < length tbl)%nat ->
  exists pre post,
    tbl = pre ++ table_get tbl hash :: post /\
    length pre = Z.to_nat hash /\
    forall c, table_set tbl hash c = pre ++ c :: post.
Proof.
  intros Hlt. unfold table_get, table_set.
  destruct (lookup_lt_is_Some_2 tbl _ Hlt) as [x Hx]. rewrite Hx. simpl.
  exists (take (Z.to_nat hash) tbl), (drop (S (Z.to_nat hash)) tbl).
  split; [by rewrite take_drop_middle|]. split.
  - rewrite length_take. lia.
  - intros c. by apply insert_take_drop.
Qed.

Lemma table_set_replaced (tbl : list chain) hash c :
  (Z.to_nat hash < length tbl)%nat ->
  bucket_replaced tbl (table_set tbl hash c) (Z.to_nat hash) c.
Proof.
  intros Hlt. unfold bucket_replaced, table_set. split; [apply length_insert|].
  split; [by apply list_lookup_insert_eq|].
  intros j Hj. by apply list_lookup_insert_ne.
Qed.

Lemma hash_index_lt ht k :
  table_ok ht ->
  (Z.to_nat (hashtable_gethash (size ht) k) < length (table ht))%nat.
Proof.
  intros [Hs Hl]. rewrite Hl.
  pose proof (hashtable_gethash_range (size ht) k). lia.
Qed.

Lemma total_entries_app t1 t2 :
  total_entries (t1 ++ t2) = (total_entries t1 + total_entries t2)%nat.
Proof. apply sum_list_with_app. Qed.

Lemma nonempty_buckets_app t1 t2 :
  nonempty_buckets (t1 ++ t2)
  = (nonempty_buckets t1 + nonempty_buckets t2)%nat.
Proof. apply sum_list_with_app. Qed.

Lemma total_entries_cons c t :
  total_entries (c :: t) = (length c + total_entries t)%nat.
Proof. done. Qed.

Lemma nonempty_buckets_cons c t :
  nonempty_buckets (c :: t) = (occupied c + nonempty_buckets t)%nat.
Proof. done. Qed.

Lemma occupied_le_length c : (occupied c <= length c)%nat.
Proof. destruct c; simpl; lia. Qed.

Lemma nonempty_le_total t : (nonempty_buckets t <= total_entries t)%nat.
Proof.
  induction t as [|c t IH]; [done|].
  rewrite total_entries_cons, nonempty_buckets_cons.
  pose proof (occupied_le_length c). lia.
Qed.

Lemma nonempty_le_length t : (nonempty_buckets t <= length t)%nat.
Proof.
  induction t as [|c t IH]; [done|].
  rewrite nonempty_buckets_cons. destruct c; simpl in *; lia.
Qed.

Lemma stored_keys_app t1 t2 :
  stored_keys (t1 ++ t2) = stored_keys t1 ++ stored_keys t2.
Proof. unfold stored_keys. by rewrite join_app, fmap_app. Qed.

Lemma stored_keys_cons c t :
  stored_keys (c :: t) = ((fun e => strcpy (key e)) <$> c) ++ stored_keys t.
Proof. unfold stored_keys. simpl. by rewrite fmap_app. Qed.

(** ** Walking a chain *)

Lemma chain_cases k (c : chain) :
  no_match k c \/ exists pre e post, first_match k c pre e post.
Proof.
  induction c as [|x c IH]; [left; constructor|].
  destruct (Z.eq_dec (strcmp (key x) k) 0) as [E|E].
  - right. exists [], x, c. split; [done|]. split; [constructor|done].
  - destruct IH as [IH|(pre & e & post & -> & Hpre & He)].
    + left. by constructor.
    + right. exists (x :: pre), e, post. split; [done|].
      split; [by constructor|done].
Qed.

Lemma first_match_not_no_match k c pre e post :
  first_match k c pre e post -> ~ no_match k c.
Proof.
  intros (-> & _ & He) Hn. apply Forall_app in Hn as [_ Hn].
  by inversion Hn.
Qed.

Lemma first_match_unique k c pre e post pre' e' post' :
  first_match k c pre e post -> first_match k c pre' e' post' ->
  pre = pre' /\ e = e' /\ post = post'.
Proof.
  intros (-> & Hpre & He). revert pre' Hpre.
  induction pre as [|x pre IH]; intros pre' Hpre (Heq & Hpre' & He').
  - destruct pre' as [|y pre']; simpl in Heq.
    + by inversion Heq.
    + inversion Heq; subst. by inversion Hpre'.
  - destruct pre' as [|y pre']; simpl in Heq.
    + inversion Heq; subst. by inversion Hpre.
    + inversion Heq; subst. inversion Hpre; subst. inversion Hpre'; subst.
      destruct (IH pre') as (-> & -> & ->); done.
Qed.

Lemma get_walk_no_match k c : no_match k c -> get_walk c k = None.
Proof.
  induction 1 as [|x c Hx _ IH]; simpl; [done|].
  unfold has_key in Hx. by destruct (Z.eqb_spec (strcmp (key x) k) 0).
Qed.

Lemma get_walk_first_match k c pre e post :
  first_match k c pre e post -> get_walk c k = Some e.
Proof.
  intros (-> & Hpre & He). induction Hpre as [|x pre Hx _ IH]; simpl.
  - unfold has_key in He. by rewrite He.
  - unfold has_key in Hx. by destruct (Z.eqb_spec (strcmp (key x) k) 0).
Qed.

Lemma insert_walk_no_match k v current next :
  no_match k (current :: next) ->
  insert_walk current next k v
  = ((current :: next) ++ [mk_entry (strcpy k) v], false,
     Some (mk_entry (strcpy k) v)).
Proof.
  revert current. induction next as [|n rest IH]; intros current Hn;
    inversion Hn as [|? ? Hx Hrest]; subst; unfold has_key in Hx; simpl.
  - by destruct (Z.eqb_spec (strcmp (key current) k) 0).
  - destruct (Z.eqb_spec (strcmp (key current) k) 0); [done|].
    by rewrite (IH n Hrest).
Qed.

Lemma insert_walk_first_match k v current next pre e post :
  first_match k (current :: next) pre e post ->
  insert_walk current next k v
  = (pre ++ mk_entry (key e) v :: post, true, Some (mk_entry (key e) v)).
Proof.
  revert current next. induction pre as [|x pre IH];
    intros current next (Heq & Hpre & He); unfold has_key in He.
  - inversion Heq; subst. destruct post; simpl; by rewrite He.
  - inversion Heq; subst. inversion Hpre as [|? ? Hx Hpre']; subst.
    unfold has_key in Hx.
    destruct pre as [|y pre]; simpl;
      (destruct (Z.eqb_spec (strcmp (key x) k) 0); [done|]).
    + specialize (IH e post (conj eq_refl (conj Hpre' He))).
      simpl in IH. by rewrite IH.
    + specialize (IH y (pre ++ e :: post) (conj eq_refl (conj Hpre' He))).
      by rewrite IH.
Qed.

Lemma delete_walk_no_match k c : no_match k c -> delete_walk c k = None.
Proof.
  induction 1 as [|x c Hx _ IH]; simpl; [done|].
  unfold has_key in Hx. destruct (Z.eqb_spec (strcmp (key x) k) 0); [done|].
  by rewrite IH.
Qed.

Lemma delete_walk_first_match k c pre e post :
  first_match k c pre e post -> delete_walk c k = Some (e, pre ++ post).
Proof.
  intros (-> & Hpre & He). induction Hpre as [|x pre Hx _ IH]; simpl.
  - unfold has_key in He. by rewrite He.
  - unfold has_key in Hx. destruct (Z.eqb_spec (strcmp (key x) k) 0); [done|].
    by rewrite IH.
Qed.

(** ** The two mutating operations, case by case *)

Lemma insert_nonnull_empty ht k v :
  table_get (table ht) (hashtable_gethash (size ht) k) = [] ->
  insert_nonnull ht k v
  = ({| size := size ht;
        different_entries := to_uint (different_entries ht + 1);
        collisions := collisions ht;
        table := table_set (table ht) (hashtable_gethash (size ht) k)
                   [mk_entry (strcpy k) v] |},
     Some (mk_entry (strcpy k) v)).
Proof. intros Hc. unfold insert_nonnull. by rewrite Hc. Qed.

Lemma insert_nonnull_found ht k v pre e post :
  first_match k (table_get (table ht) (hashtable_gethash (size ht) k))
    pre e post ->
  insert_nonnull ht k v
  = ({| size := size ht;
        different_entries := different_entries ht;
        collisions := collisions ht;
        table := table_set (table ht) (hashtable_gethash (size ht) k)
                   (pre ++ mk_entry (key e) v :: post) |},
     Some (mk_entry (key e) v)).
Proof.
  intros Hm. unfold insert_nonnull.
  destruct (table_get (table ht) (hashtable_gethash (size ht) k))
    as [|current next] eqn:Hc.
  - destruct Hm as (Heq & _). by destruct pre.
  - by rewrite (insert_walk_first_match k v current next pre e post Hm).
Qed.

Lemma insert_nonnull_append ht k v :
  table_get (table ht) (hashtable_gethash (size ht) k) <> [] ->
  no_match k (table_get (table ht) (hashtable_gethash (size ht) k)) ->
  insert_nonnull ht k v
  = ({| size := size ht;
        different_entries := different_entries ht;
        collisions := to_uint (collisions ht + 1);
        table := table_set (table ht) (hashtable_gethash (size ht) k)
                   (table_get (table ht) (hashtable_gethash (size ht) k)
                    ++ [mk_entry (strcpy k) v]) |},
     Some (mk_entry (strcpy k) v)).
Proof.
  intros Hne Hn. unfold insert_nonnull.
  destruct (table_get (table ht) (hashtable_gethash (size ht) k))
    as [|current next] eqn:Hc; [done|].
  by rewrite (insert_walk_no_match k v current next Hn).
Qed.

Lemma delete_nonnull_absent ht k :
  no_match k (table_get (table ht) (hashtable_gethash (size ht) k)) ->
  delete_nonnull ht k = (ht, 0).
Proof.
  intros Hn. unfold delete_nonnull.
  destruct (table_get (table ht) (hashtable_gethash (size ht) k))
    as [|head next] eqn:Hc; [done|].
  inversion Hn as [|? ? Hx Hrest]; subst. unfold has_key in Hx.
  destruct (Z.eqb_spec (strcmp (key head) k) 0); [done|].
  by rewrite (delete_walk_no_match k next Hrest).
Qed.

Lemma delete_nonnull_sole ht k e :
  table_get (table ht) (hashtable_gethash (size ht) k) = [e] ->
  has_key k e ->
  delete_nonnull ht k
  = ({| size := size ht;
        different_entries := to_uint (different_entries ht - 1);
        collisions := collisions ht;
        table := table_set (table ht) (hashtable_gethash (size ht) k) [] |},
     delete_result e).
Proof.
  intros Hc He. unfold delete_nonnull. rewrite Hc.
  unfold has_key in He. by rewrite He.
Qed.

Lemma delete_nonnull_head ht k e n post :
  table_get (table ht) (hashtable_gethash (size ht) k) = e :: n :: post ->
  has_key k e ->
  delete_nonnull ht k
  = ({| size := size ht;
        different_entries := different_entries ht;
        collisions := to_uint (collisions ht - 1);
        table := table_set (table ht) (hashtable_gethash (size ht) k)
                   (n :: post) |},
     delete_result e).
Proof.
  intros Hc He. unfold delete_nonnull. rewrite Hc.
  unfold has_key in He. by rewrite He.
Qed.

Lemma delete_nonnull_inner ht k p pre e post :
  first_match k (table_get (table ht) (hashtable_gethash (size ht) k))
    (p :: pre) e post ->
  delete_nonnull ht k
  = ({| size := size ht;
        different_entries := different_entries ht;
        collisions := to_uint (collisions ht - 1);
        table := table_set (table ht) (hashtable_gethash (size ht) k)
                   (p :: pre ++ post) |},
     delete_result e).
Proof.
  intros (Hc & Hpre & He). unfold delete_nonnull. rewrite Hc. simpl.
  inversion Hpre as [|? ? Hp Hpre']; subst. unfold has_key in Hp.
  destruct (Z.eqb_spec (strcmp (key p) k) 0); [done|].
  by rewrite (delete_walk_first_match k (pre ++ e :: post) pre e post).
Qed.

(** The shapes a bucket can have with respect to a key to delete. *)
Lemma delete_shapes k (c : chain) :
  no_match k c \/
  (exists e, c = [e] /\ has_key k e) \/
  (exists e n post, c = e :: n :: post /\ has_key k e) \/
  (exists p pre e post, first_match k c (p :: pre) e post).
Proof.
  destruct (chain_cases k c) as [?|(pre & e & post & Hm)]; [by left|right].
  destruct pre as [|p pre].
  - destruct Hm as (-> & _ & He). destruct post as [|n post].
    + left. by exists e.
    + right; left. by exists e, n, post.
  - right; right. by exists p, pre, e, post.
Qed.

(** ** Invariants *)

Lemma to_uint_add_l a b : to_uint (to_uint a + b) = to_uint (a + b).
Proof. unfold to_uint. apply Zplus_mod_idemp_l. Qed.

Lemma table_set_measures (tbl : list chain) hash c' :
  (Z.to_nat hash < length tbl)%nat ->
  Z.of_nat (total_entries (table_set tbl hash c'))
  = Z.of_nat (total_entries tbl) + Z.of_nat (length c')
    - Z.of_nat (length (table_get tbl hash)) /\
  Z.of_nat (nonempty_buckets (table_set tbl hash c'))
  = Z.of_nat (nonempty_buckets tbl) + Z.of_nat (occupied c')
    - Z.of_nat (occupied (table_get tbl hash)).
Proof.
  intros Hlt. destruct (table_split tbl hash Hlt) as (pre & post & Ht & _ & Hs).
  rewrite Hs. set (c := table_get tbl hash) in *. clearbody c. rewrite Ht.
  rewrite !total_entries_app, !nonempty_buckets_app,
    !total_entries_cons, !nonempty_buckets_cons. lia.
Qed.

Lemma table_set_length (tbl : list chain) hash c :
  length (table_set tbl hash c) = length tbl.
Proof. apply length_insert. Qed.

Lemma table_get_in (tbl : list chain) hash e :
  e ∈ table_get tbl hash -> e ∈ mjoin tbl.
Proof.
  unfold table_get. destruct (tbl !! Z.to_nat hash) as [c|] eqn:Hc; simpl.
  - intros He. apply list_elem_of_join. exists c. split; [done|].
    by eapply list_elem_of_lookup_2.
  - by intros ?%elem_of_nil.
Qed.

Lemma newhashtable_ok sz ht :
  is_uint sz -> hashtable_newhashtable sz = Some ht ->
  table_ok ht /\ counters_ok ht /\ values_ok ht /\
  stored_keys (table ht) = [] /\ total_entries (table ht) = 0%nat.
Proof.
  unfold hashtable_newhashtable, is_uint. intros Hsz.
  destruct (Z.ltb_spec sz 2); [done|]. intros [= <-].
  unfold table_ok, counters_ok, values_ok, stored_keys; simpl.
  assert (forall n, total_entries (replicate n []) = 0%nat
                    /\ nonempty_buckets (replicate n []) = 0%nat
                    /\ mjoin (replicate n ([] : chain)) = []) as Hz.
  { induction n as [|n (IH1 & IH2 & IH3)]; [done|].
    change (replicate (S n) ([] : chain)) with ([] :: replicate n ([] : chain)).
    rewrite total_entries_cons, nonempty_buckets_cons, IH1, IH2. simpl.
    by rewrite IH3. }
  destruct (Hz (Z.to_nat sz)) as (-> & -> & ->).
  repeat split; try lia; try done.
  - by rewrite length_replicate.
  - apply Forall_replicate. constructor.
Qed.

Lemma insert_nonnull_preserves ht k v :
  table_ok ht -> counters_ok ht ->
  table_ok (insert_nonnull ht k v).1 /\ counters_ok (insert_nonnull ht k v).1.
Proof.
  intros Hok [Hde Hco]. pose proof (hash_index_lt ht k Hok) as Hlt.
  set (c := table_get (table ht) (hashtable_gethash (size ht) k)).
  assert (forall c' d n,
    table_ok {| size := size ht; different_entries := d; collisions := n;
                table := table_set (table ht)
                           (hashtable_gethash (size ht) k) c' |}) as Hok'.
  { intros. destruct Hok as [? Hl]. split; simpl; [done|].
    by rewrite table_set_length. }
  destruct (chain_cases k c) as [Hn|(pre & e & post & Hm)].
  - destruct c as [|x c'] eqn:Hc.
    + rewrite insert_nonnull_empty by done. split; [apply Hok'|].
      unfold counters_ok; simpl.
      destruct (table_set_measures (table ht) (hashtable_gethash (size ht) k)
                  [mk_entry (strcpy k) v] Hlt) as [HT HN].
      fold c in HT, HN. rewrite Hc in HT, HN. simpl in HT, HN.
      pose proof (nonempty_le_length
        (table_set (table ht) (hashtable_gethash (size ht) k)
           [mk_entry (strcpy k) v])) as Hle.
      rewrite table_set_length in Hle. destruct Hok as [Hs Hl].
      split.
      * rewrite Hde. rewrite to_uint_id; [lia|]. unfold is_uint. lia.
      * rewrite Hco. f_equal. lia.
    + rewrite insert_nonnull_append by (fold c; by rewrite ?Hc).
      split; [apply Hok'|]. unfold counters_ok; simpl. fold c. rewrite Hc.
      destruct (table_set_measures (table ht) (hashtable_gethash (size ht) k)
                  ((x :: c') ++ [mk_entry (strcpy k) v]) Hlt) as [HT HN].
      fold c in HT, HN. rewrite Hc in HT, HN.
      rewrite length_app in HT. simpl in HT, HN. simpl.
      split; [lia|]. rewrite Hco, to_uint_add_l. f_equal. lia.
  - rewrite (insert_nonnull_found ht k v pre e post Hm).
    split; [apply Hok'|]. unfold counters_ok; simpl.
    destruct (table_set_measures (table ht) (hashtable_gethash (size ht) k)
                (pre ++ mk_entry (key e) v :: post) Hlt) as [HT HN].
    destruct Hm as (Hc & _). fold c in HT, HN. rewrite Hc in HT, HN.
    rewrite !length_app in HT. simpl in HT.
    assert (occupied (pre ++ mk_entry (key e) v :: post) = 1%nat
            /\ occupied (pre ++ e :: post) = 1%nat) as [E1 E2]
      by (by destruct pre).
    rewrite E1, E2 in HN. split; [lia|]. rewrite Hco. f_equal. lia.
Qed.

Lemma to_uint_sub_l a b : to_uint (to_uint a - b) = to_uint (a - b).
Proof. unfold to_uint. apply Zminus_mod_idemp_l. Qed.

Lemma delete_nonnull_preserves ht k :
  table_ok ht -> counters_ok ht ->
  table_ok (delete_nonnull ht k).1 /\ counters_ok (delete_nonnull ht k).1.
Proof.
  intros Hok [Hde Hco]. pose proof (hash_index_lt ht k Hok) as Hlt.
  set (h := hashtable_gethash (size ht) k) in *.
  assert (forall c' d n,
    table_ok {| size := size ht; different_entries := d; collisions := n;
                table := table_set (table ht) h c' |}) as Hok'.
  { intros. destruct Hok as [? Hl]. split; simpl; [done|].
    by rewrite table_set_length. }
  pose proof (fun c' => table_set_measures (table ht) h c' Hlt) as HM.
  destruct (delete_shapes k (table_get (table ht) h))
    as [Hn|[(e & Hc & He)|[(e & n & post & Hc & He)|(p & pre & e & post & Hm)]]].
  - rewrite delete_nonnull_absent by done. by split.
  - rewrite (delete_nonnull_sole ht k e) by done. split; [apply Hok'|].
    unfold counters_ok; simpl. fold h. destruct (HM []) as [HT HN].
    rewrite Hc in HT, HN. simpl in HT, HN.
    pose proof (nonempty_le_total (table_set (table ht) h [])).
    split.
    + rewrite Hde. rewrite to_uint_id; [lia|].
      pose proof (nonempty_le_length (table ht)). destruct Hok as [Hs Hl].
      unfold is_uint. lia.
    + rewrite Hco. f_equal. lia.
  - rewrite (delete_nonnull_head ht k e n post) by done. split; [apply Hok'|].
    unfold counters_ok; simpl. fold h. destruct (HM (n :: post)) as [HT HN].
    rewrite Hc in HT, HN. simpl in HT, HN.
    split; [lia|]. rewrite Hco, to_uint_sub_l. f_equal. lia.
  - rewrite (delete_nonnull_inner ht k p pre e post) by done.
    split; [apply Hok'|]. unfold counters_ok; simpl. fold h.
    destruct (HM (p :: pre ++ post)) as [HT HN].
    destruct Hm as (Hc & _). rewrite Hc in HT, HN.
    simpl in HT, HN. rewrite !length_app in HT. simpl in HT.
    split; [lia|]. rewrite Hco, to_uint_sub_l. f_equal. lia.
Qed.

Lemma values_ok_table_get ht hash :
  values_ok ht -> Forall (fun e => is_uint (val e)) (table_get (table ht) hash).
Proof.
  unfold values_ok, table_get. intros Hv.
  destruct (table ht !! Z.to_nat hash) as [c|] eqn:Hc; simpl; [|constructor].
  by eapply Forall_lookup_1.
Qed.

Lemma values_ok_table_set ht hash c d n :
  values_ok ht -> Forall (fun e => is_uint (val e)) c ->
  values_ok {| size := size ht; different_entries := d; collisions := n;
               table := table_set (table ht) hash c |}.
Proof. unfold values_ok, table_set; simpl. intros. by apply Forall_insert. Qed.

Lemma insert_nonnull_values ht k v :
  values_ok ht -> is_uint v -> values_ok (insert_nonnull ht k v).1.
Proof.
  intros Hv Hu.
  pose proof (values_ok_table_get ht (hashtable_gethash (size ht) k) Hv) as Hc.
  destruct (chain_cases k (table_get (table ht) (hashtable_gethash (size ht) k)))
    as [Hn|(pre & e & post & Hm)].
  - destruct (table_get (table ht) (hashtable_gethash (size ht) k))
      as [|x c'] eqn:E.
    + rewrite insert_nonnull_empty by done.
      apply values_ok_table_set; [done|]. constructor; [done|constructor].
    + rewrite insert_nonnull_append by (by rewrite ?E).
      apply values_ok_table_set; [done|]. rewrite E.
      apply Forall_app. split; [done|]. constructor; [done|constructor].
  - rewrite (insert_nonnull_found ht k v pre e post Hm).
    apply values_ok_table_set; [done|]. destruct Hm as (E & _).
    rewrite E in Hc. apply Forall_app in Hc as [Hpre Hpost].
    apply Forall_app. split; [done|]. inversion Hpost; subst.
    by constructor.
Qed.

Lemma delete_nonnull_values ht k :
  values_ok ht -> values_ok (delete_nonnull ht k).1.
Proof.
  intros Hv.
  pose proof (values_ok_table_get ht (hashtable_gethash (size ht) k) Hv) as Hc.
  destruct (delete_shapes k (table_get (table ht) (hashtable_gethash (size ht) k)))
    as [Hn|[(e & E & He)|[(e & n & post & E & He)|(p & pre & e & post & Hm)]]].
  - by rewrite delete_nonnull_absent.
  - rewrite (delete_nonnull_sole ht k e) by done.
    apply values_ok_table_set; [done|constructor].
  - rewrite (delete_nonnull_head ht k e n post) by done.
    apply values_ok_table_set; [done|]. rewrite E in Hc. by inversion Hc.
  - rewrite (delete_nonnull_inner ht k p pre e post) by done.
    apply values_ok_table_set; [done|]. destruct Hm as (E & _).
    rewrite E in Hc. change (p :: pre ++ e :: post) with ((p :: pre) ++ e :: post) in Hc.
    apply Forall_app in Hc as [Hpre Hpost]. inversion Hpost; subst.
    change (p :: pre ++ post) with ((p :: pre) ++ post). by apply Forall_app.
Qed.

Lemma hashtable_insert_nonnull ht k v :
  hashtable_insert (Some ht) (Some k) v
  = (Some (insert_nonnull ht k v).1, (insert_nonnull ht k v).2).
Proof. unfold hashtable_insert. by destruct (insert_nonnull ht k v). Qed.

Lemma hashtable_delete_nonnull ht k :
  hashtable_delete (Some ht) (Some k)
  = (Some (delete_nonnull ht k).1, (delete_nonnull ht k).2).
Proof. unfold hashtable_delete. by destruct (delete_nonnull ht k). Qed.

(** Every reachable table is well formed and its counters describe it. *)
Lemma reachable_ok ht :
  reachable ht -> table_ok ht /\ counters_ok ht /\ values_ok ht.
Proof.
  induction 1 as [sz ht Hsz Hnew|ht k v ht' _ (IH1 & IH2 & IH3) _ Hv Hins
                 |ht k ht' _ (IH1 & IH2 & IH3) Hdel].
  - destruct (newhashtable_ok sz ht Hsz Hnew) as (? & ? & ? & _). done.
  - rewrite hashtable_insert_nonnull in Hins. simpl in Hins.
    injection Hins as <-.
    destruct (insert_nonnull_preserves ht k v IH1 IH2).
    split; [done|]. split; [done|]. by apply insert_nonnull_values.
  - rewrite hashtable_delete_nonnull in Hdel. simpl in Hdel.
    injection Hdel as <-.
    destruct (delete_nonnull_preserves ht k IH1 IH2).
    split; [done|]. split; [done|]. by apply delete_nonnull_values.
Qed.

(** ** Keys stored by a run of inserts *)

Lemma table_get_set (tbl : list chain) hash c :
  (Z.to_nat hash < length tbl)%nat -> table_get (table_set tbl hash c) hash = c.
Proof.
  intros Hlt. unfold table_get, table_set.
  by rewrite list_lookup_insert_eq.
Qed.

Lemma stored_keys_table_set (tbl : list chain) hash c' x :
  (Z.to_nat hash < length tbl)%nat ->
  x ∈ stored_keys (table_set tbl hash c') ->
  x ∈ ((fun e => strcpy (key e)) <$> c') \/ x ∈ stored_keys tbl.
Proof.
  intros Hlt. destruct (table_split tbl hash Hlt) as (pre & post & Ht & _ & Hs).
  rewrite Hs. set (c := table_get tbl hash) in *. clearbody c. rewrite Ht.
  rewrite !stored_keys_app, !stored_keys_cons, !elem_of_app. tauto.
Qed.

Lemma stored_keys_table_get (tbl : list chain) hash e :
  e ∈ table_get tbl hash -> strcpy (key e) ∈ stored_keys tbl.
Proof.
  intros He. unfold stored_keys. apply list_elem_of_fmap.
  exists e. split; [done|]. by eapply table_get_in.
Qed.

Lemma fresh_no_match (tbl : list chain) hash k :
  strcpy k ∉ stored_keys tbl -> no_match k (table_get tbl hash).
Proof.
  intros Hk. apply list.Forall_forall. intros e He Hm. apply Hk.
  unfold has_key in Hm. apply strcmp_zero in Hm. rewrite <- Hm. by eapply stored_keys_table_get.
Qed.

Lemma insert_nonnull_stored_keys ht k v x :
  table_ok ht ->
  x ∈ stored_keys (table (insert_nonnull ht k v).1) ->
  x = strcpy k \/ x ∈ stored_keys (table ht).
Proof.
  intros Hok. pose proof (hash_index_lt ht k Hok) as Hlt.
  set (h := hashtable_gethash (size ht) k) in *.
  destruct (chain_cases k (table_get (table ht) h))
    as [Hn|(pre & e & post & Hm)].
  - destruct (table_get (table ht) h) as [|y c'] eqn:E.
    + rewrite insert_nonnull_empty by done. simpl. fold h.
      intros [Hx|Hx]%stored_keys_table_set; [|by right|done].
      left. apply list_elem_of_fmap in Hx as (e & -> & He).
      apply list_elem_of_singleton in He as ->. simpl. apply strcpy_idem.
    + rewrite insert_nonnull_append by (fold h; by rewrite ?E). simpl. fold h.
      intros [Hx|Hx]%stored_keys_table_set; [|by right|done].
      apply list_elem_of_fmap in Hx as (e & -> & He).
      apply elem_of_app in He as [He|He].
      * right. rewrite E in He. apply (stored_keys_table_get _ h). by rewrite E.
      * left. apply list_elem_of_singleton in He as ->. simpl. apply strcpy_idem.
  - rewrite (insert_nonnull_found ht k v pre e post Hm). simpl. fold h.
    intros [Hx|Hx]%stored_keys_table_set; [|by right|done].
    right. destruct Hm as (E & _).
    apply list_elem_of_fmap in Hx as (e' & -> & He).
    apply elem_of_app in He as [He|He].
    + apply (stored_keys_table_get _ h). rewrite E.
      apply elem_of_app. by left.
    + apply elem_of_cons in He as [->|He]; simpl.
      * apply (stored_keys_table_get _ h). rewrite E.
        apply elem_of_app. right. by left.
      * apply (stored_keys_table_get _ h). rewrite E.
        apply elem_of_app. right. by right.
Qed.

Lemma insert_nonnull_fresh_total ht k v :
  table_ok ht -> strcpy k ∉ stored_keys (table ht) ->
  total_entries (table (insert_nonnull ht k v).1)
  = S (total_entries (table ht)).
Proof.
  intros Hok Hk. pose proof (hash_index_lt ht k Hok) as Hlt.
  set (h := hashtable_gethash (size ht) k) in *.
  pose proof (fresh_no_match (table ht) h k Hk) as Hn.
  destruct (table_get (table ht) h) as [|y c'] eqn:E.
  - rewrite insert_nonnull_empty by done. simpl. fold h.
    destruct (table_set_measures (table ht) h [mk_entry (strcpy k) v] Hlt)
      as [HT _].
    rewrite E in HT. simpl in HT. lia.
  - rewrite insert_nonnull_append by (fold h; by rewrite ?E). simpl. fold h.
    destruct (table_set_measures (table ht) h
                (table_get (table ht) h ++ [mk_entry (strcpy k) v]) Hlt)
      as [HT _].
    rewrite length_app in HT. simpl in HT. lia.
Qed.

Lemma run_operations_cons h o os :
  run_operations h (o :: os) = run_operations (run_operation h o) os.
Proof. done. Qed.

Lemma run_operation_insert ht k v :
  run_operation (Some ht) (Insert k v) = Some (insert_nonnull ht k v).1.
Proof. unfold run_operation. by rewrite hashtable_insert_nonnull. Qed.

Lemma run_operation_delete ht k :
  run_operation (Some ht) (Delete k) = Some (delete_nonnull ht k).1.
Proof. unfold run_operation. by rewrite hashtable_delete_nonnull. Qed.

Lemma insert_nonnull_size ht k v : size (insert_nonnull ht k v).1 = size ht.
Proof.
  unfold insert_nonnull.
  destruct (table_get (table ht) (hashtable_gethash (size ht) k)) as [|x c];
    [done|].
  by destruct (insert_walk x c k v) as [[? []] ?].
Qed.

Lemma run_inserts_total kvs : forall ht,
  table_ok ht -> counters_ok ht ->
  NoDup (keys_of kvs) ->
  (forall x, x ∈ keys_of kvs -> x ∉ stored_keys (table ht)) ->
  exists ht',
    run_operations (Some ht) (inserts kvs) = Some ht' /\
    table_ok ht' /\ counters_ok ht' /\ size ht' = size ht /\
    total_entries (table ht')
    = (total_entries (table ht) + length kvs)%nat.
Proof.
  induction kvs as [|[k v] kvs IH]; intros ht Hok Hco Hnd Hfresh.
  - exists ht. simpl. do 4 (split; [done|]). lia.
  - unfold keys_of in Hnd. simpl in Hnd. apply NoDup_cons in Hnd as [Hk Hnd].
    destruct (insert_nonnull_preserves ht k v Hok Hco) as [Hok1 Hco1].
    destruct (IH (insert_nonnull ht k v).1 Hok1 Hco1 Hnd) as (ht' & Hrun & ? & ? & Hsz & HT).
    { intros x Hx Hin.
      apply insert_nonnull_stored_keys in Hin as [->|Hin]; [done| |done].
      apply (Hfresh x); [|done]. unfold keys_of. simpl. by right. }
    exists ht'. split.
    { unfold inserts. rewrite fmap_cons, run_operations_cons.
      by rewrite run_operation_insert. }
    split; [done|]. split; [done|]. split.
    { by rewrite Hsz, insert_nonnull_size. }
    rewrite HT, insert_nonnull_fresh_total; [simpl; lia|done|].
    apply Hfresh. unfold keys_of. simpl. by left.
Qed.

(** ** Looking up what was inserted *)

Lemma get_walk_inv k c e :
  get_walk c k = Some e -> exists pre post, first_match k c pre e post.
Proof.
  intros Hg. destruct (chain_cases k c) as [Hn|(pre & e' & post & Hm)].
  - by rewrite (get_walk_no_match k c Hn) in Hg.
  - rewrite (get_walk_first_match k c pre e' post Hm) in Hg.
    injection Hg as <-. by exists pre, post.
Qed.

Lemma has_key_new k v : has_key k (mk_entry (strcpy k) v).
Proof. unfold has_key. simpl. apply strcmp_strcpy_l, strcmp_refl. Qed.

Lemma insert_nonnull_get ht k v :
  table_ok ht ->
  exists e,
    get_walk (table_get (table (insert_nonnull ht k v).1)
                (hashtable_gethash (size (insert_nonnull ht k v).1) k)) k
    = Some e /\ val e = v.
Proof.
  intros Hok. pose proof (hash_index_lt ht k Hok) as Hlt.
  rewrite insert_nonnull_size.
  set (h := hashtable_gethash (size ht) k) in *.
  destruct (chain_cases k (table_get (table ht) h))
    as [Hn|(pre & e & post & Hm)].
  - destruct (table_get (table ht) h) as [|y c'] eqn:E.
    + rewrite insert_nonnull_empty by done. simpl. fold h.
      rewrite table_get_set by done. exists (mk_entry (strcpy k) v).
      split; [|done].
      apply (get_walk_first_match k _ [] _ []).
      split; [done|]. split; [constructor|apply has_key_new].
    + rewrite insert_nonnull_append by (fold h; by rewrite ?E). simpl. fold h.
      rewrite table_get_set by done. exists (mk_entry (strcpy k) v).
      split; [|done]. rewrite E.
      apply (get_walk_first_match k _ (y :: c') _ []).
      split; [done|]. split; [done|apply has_key_new].
  - rewrite (insert_nonnull_found ht k v pre e post Hm). simpl. fold h.
    rewrite table_get_set by done. exists (mk_entry (key e) v).
    split; [|done]. destruct Hm as (_ & Hpre & He).
    by apply (get_walk_first_match k _ pre _ post).
Qed.

Lemma insert_nonnull_present ht k v e :
  get_walk (table_get (table ht) (hashtable_gethash (size ht) k)) k = Some e ->
  different_entries (insert_nonnull ht k v).1 = different_entries ht /\
  collisions (insert_nonnull ht k v).1 = collisions ht.
Proof.
  intros (pre & post & Hm)%get_walk_inv.
  by rewrite (insert_nonnull_found ht k v pre e post Hm).
Qed.

Lemma insert_nonnull_table ht k v :
  exists c', table (insert_nonnull ht k v).1
             = table_set (table ht) (hashtable_gethash (size ht) k) c'.
Proof.
  unfold insert_nonnull.
  destruct (table_get (table ht) (hashtable_gethash (size ht) k)) as [|x c].
  - by eexists.
  - destruct (insert_walk x c k v) as [[c' []] ?]; by eexists.
Qed.

Lemma insert_nonnull_table_ok ht k v :
  table_ok ht -> table_ok (insert_nonnull ht k v).1.
Proof.
  intros [Hs Hl]. destruct (insert_nonnull_table ht k v) as [c' Ht].
  split; rewrite insert_nonnull_size; [done|].
  by rewrite Ht, table_set_length.
Qed.

Lemma insert_nonnull_returns ht k v : is_Some (insert_nonnull ht k v).2.
Proof.
  destruct (chain_cases k (table_get (table ht) (hashtable_gethash (size ht) k)))
    as [Hn|(pre & e & post & Hm)].
  - destruct (table_get (table ht) (hashtable_gethash (size ht) k))
      as [|y c'] eqn:E.
    + by rewrite insert_nonnull_empty.
    + by rewrite insert_nonnull_append by (by rewrite ?E).
  - by rewrite (insert_nonnull_found ht k v pre e post Hm).
Qed.

Lemma reachable_run_from ops : forall ht0 ht,
  reachable ht0 -> Forall operation_ok ops ->
  run_operations (Some ht0) ops = Some ht -> reachable ht.
Proof.
  induction ops as [|o ops IH]; intros ht0 ht Hr Hops Hrun.
  - by injection Hrun as <-.
  - apply Forall_cons in Hops as [Ho Hops]. rewrite run_operations_cons in Hrun.
    destruct o as [k v|k].
    + rewrite run_operation_insert in Hrun. destruct Ho as [Hk Hv].
      apply (IH (insert_nonnull ht0 k v).1); [|done|done].
      apply (reachable_insert ht0 k v); [done|done|done|].
      by rewrite hashtable_insert_nonnull.
    + rewrite run_operation_delete in Hrun.
      apply (IH (delete_nonnull ht0 k).1); [|done|done].
      apply (reachable_delete ht0 k); [done|].
      by rewrite hashtable_delete_nonnull.
Qed.

Lemma reachable_run sz ht0 ops ht :
  is_uint sz -> hashtable_newhashtable sz = Some ht0 ->
  Forall operation_ok ops ->
  run_operations (Some ht0) ops = Some ht -> reachable ht.
Proof.
  intros Hsz Hnew. apply reachable_run_from. by apply (reachable_new sz).
Qed.

(** * The claims *)

(** C2: for every table reachable from [hashtable_newhashtable] by inserts
    and deletes with non-NULL keys, as long as the number of stored entries
    fits the [unsigned int] counters, [collisions] is the number of entries
    minus the number of non-empty buckets, [different_entries] is the number
    of non-empty buckets, and the number of entries is
    [different_entries + collisions]. *)
Theorem counter_invariant ht :
  reachable ht ->
  Z.of_nat (total_entries (table ht)) <= UINT_MAX ->
  collisions ht
  = Z.of_nat (total_entries (table ht)) - Z.of_nat (nonempty_buckets (table ht))
  /\ different_entries ht = Z.of_nat (nonempty_buckets (table ht))
  /\ Z.of_nat (total_entries (table ht)) = different_entries ht + collisions ht.
Proof.
  intros Hr Hb. destruct (reachable_ok ht Hr) as (_ & [Hde Hco] & _).
  pose proof (nonempty_le_total (table ht)) as Hle.
  rewrite to_uint_id in Hco by (unfold is_uint; lia). lia.
Qed.

(** C4: [hashtable_insert] on a well-formed table and a non-NULL key falls
    in exactly one of three cases on the key's bucket. Empty bucket: the new
    entry becomes the only member of the chain and [different_entries] is
    incremented. Some entry carries the key: the first such entry has its
    value overwritten, its key and position kept, and no counter changes.
    Otherwise: the new entry is appended at the tail and [collisions] is
    incremented. Counters are [unsigned int]s, so an increment is taken
    modulo 2^32. *)
Theorem insert_three_cases ht k v :
  table_ok ht -> key_fits k ->
  let hash := hashtable_gethash (size ht) k in
  let c := table_get (table ht) hash in
  (exists ht' r,
    hashtable_insert (Some ht) (Some k) v = (Some ht', Some r) /\
    size ht' = size ht /\
    ((c = [] /\
      bucket_replaced (table ht) (table ht') (Z.to_nat hash) [r] /\
      r = mk_entry (strcpy k) v /\
      different_entries ht' = to_uint (different_entries ht + 1) /\
      collisions ht' = collisions ht)
     \/
     (exists pre e post,
        first_match k c pre e post /\
        bucket_replaced (table ht) (table ht') (Z.to_nat hash)
          (pre ++ r :: post) /\
        r = mk_entry (key e) v /\
        different_entries ht' = different_entries ht /\
        collisions ht' = collisions ht)
     \/
     (c <> [] /\ no_match k c /\
      bucket_replaced (table ht) (table ht') (Z.to_nat hash) (c ++ [r]) /\
      r = mk_entry (strcpy k) v /\
      different_entries ht' = different_entries ht /\
      collisions ht' = to_uint (collisions ht + 1))))
  /\ ~ (c = [] /\ exists pre e post, first_match k c pre e post)
  /\ ~ ((exists pre e post, first_match k c pre e post) /\ no_match k c).
Proof.
  intros Hok _ hash c. pose proof (hash_index_lt ht k Hok) as Hlt.
  fold hash in Hlt. split; [|split].
  - rewrite hashtable_insert_nonnull.
    destruct (chain_cases k c) as [Hn|(pre & e & post & Hm)].
    + destruct c as [|y c'] eqn:E.
      * subst c hash. rewrite insert_nonnull_empty by done.
        eexists _, _. split; [done|]. split; [done|]. left.
        split; [done|]. split; [by apply table_set_replaced|done].
      * subst hash. rewrite insert_nonnull_append by (fold c; by rewrite ?E).
        eexists _, _. split; [done|]. split; [done|]. right; right.
        split; [done|]. split; [done|]. fold c. rewrite E.
        split; [by apply table_set_replaced|done].
    + subst c hash. rewrite (insert_nonnull_found ht k v pre e post Hm).
      eexists _, _. split; [done|]. split; [done|]. right; left.
      exists pre, e, post. split; [done|].
      split; [by apply table_set_replaced|done].
  - intros (E & pre & e & post & Hc & _). rewrite E in Hc. by destruct pre.
  - intros ((pre & e & post & Hm) & Hn).
    by apply (first_match_not_no_match k c pre e post).
Qed.

(** C5: [hashtable_delete] on a well-formed table and a non-NULL key. When
    no entry of the key's bucket carries the key it returns 0 and leaves the
    table as it was. Otherwise it returns the stored value of the first
    entry carrying the key and removes that entry only: the only member of
    its chain leaves the bucket empty and decrements [different_entries]; a
    head with successors is replaced by its successor and decrements
    [collisions]; an entry past the head is spliced out, its predecessors
    followed directly by its successors, and decrements [collisions].
    Decrements are taken modulo 2^32. *)
Theorem delete_cases ht k :
  table_ok ht -> values_ok ht ->
  let hash := hashtable_gethash (size ht) k in
  let c := table_get (table ht) hash in
  exists ht' r,
    hashtable_delete (Some ht) (Some k) = (Some ht', r) /\
    ((no_match k c /\ ht' = ht /\ r = 0)
     \/
     (exists e,
        c = [e] /\ has_key k e /\ r = val e /\ size ht' = size ht /\
        bucket_replaced (table ht) (table ht') (Z.to_nat hash) [] /\
        different_entries ht' = to_uint (different_entries ht - 1) /\
        collisions ht' = collisions ht)
     \/
     (exists e n post,
        c = e :: n :: post /\ has_key k e /\ r = val e /\
        size ht' = size ht /\
        bucket_replaced (table ht) (table ht') (Z.to_nat hash) (n :: post) /\
        different_entries ht' = different_entries ht /\
        collisions ht' = to_uint (collisions ht - 1))
     \/
     (exists p pre e post,
        first_match k c (p :: pre) e post /\ r = val e /\
        size ht' = size ht /\
        bucket_replaced (table ht) (table ht') (Z.to_nat hash)
          (p :: pre ++ post) /\
        different_entries ht' = different_entries ht /\
        collisions ht' = to_uint (collisions ht - 1))).
Proof.
  intros Hok Hv hash c. pose proof (hash_index_lt ht k Hok) as Hlt.
  fold hash in Hlt. rewrite hashtable_delete_nonnull.
  pose proof (values_ok_table_get ht hash Hv) as Hvc. fold c in Hvc.
  assert (forall e, e ∈ c -> delete_result e = val e) as Hres.
  { intros e He. apply to_uint_to_int.
    by apply (proj1 (list.Forall_forall _ _) Hvc). }
  destruct (delete_shapes k c)
    as [Hn|[(e & E & He)|[(e & n & post & E & He)|(p & pre & e & post & Hm)]]].
  - subst c hash. rewrite delete_nonnull_absent by done.
    eexists _, _. split; [done|]. by left.
  - subst c hash. rewrite (delete_nonnull_sole ht k e) by done.
    eexists _, _. split; [done|]. right; left. exists e.
    split; [done|]. split; [done|]. split.
    { apply Hres. rewrite E. by left. }
    split; [done|]. split; [by apply table_set_replaced|done].
  - subst c hash. rewrite (delete_nonnull_head ht k e n post) by done.
    eexists _, _. split; [done|]. right; right; left. exists e, n, post.
    split; [done|]. split; [done|]. split.
    { apply Hres. rewrite E. by left. }
    split; [done|]. split; [by apply table_set_replaced|done].
  - subst c hash. rewrite (delete_nonnull_inner ht k p pre e post) by done.
    eexists _, _. split; [done|]. right; right; right. exists p, pre, e, post.
    split; [done|]. split.
    { apply Hres. destruct Hm as (E & _). rewrite E.
      right. apply elem_of_app. right. by left. }
    split; [done|]. split; [by apply table_set_replaced|done].
Qed.

(** C6: inserting a key that is already there is an update. After
    [hashtable_insert] of [k] with [v1], a second one with [v2] makes
    [hashtable_get] return an entry whose value is [v2] and leaves both
    counters as they were before the second call; and however many times
    [k] is inserted again, with whatever values, the counters stay as they
    were after the first call. *)
Theorem insert_existing_updates ht k v1 v2 :
  table_ok ht -> key_fits k ->
  exists ht1 ht2 r1 r2 e,
    hashtable_insert (Some ht) (Some k) v1 = (Some ht1, r1) /\
    hashtable_insert (Some ht1) (Some k) v2 = (Some ht2, r2) /\
    hashtable_get (Some ht2) (Some k) = Some e /\ val e = v2 /\
    different_entries ht2 = different_entries ht1 /\
    collisions ht2 = collisions ht1 /\
    forall vs, exists htn,
      run_operations (Some ht1) (Insert k <$> vs) = Some htn /\
      different_entries htn = different_entries ht1 /\
      collisions htn = collisions ht1.
Proof.
  intros Hok _. rewrite hashtable_insert_nonnull.
  set (ht1 := (insert_nonnull ht k v1).1).
  pose proof (insert_nonnull_table_ok ht k v1 Hok) as Hok1. fold ht1 in Hok1.
  destruct (insert_nonnull_get ht k v1 Hok) as (e1 & Hg1 & _). fold ht1 in Hg1.
  destruct (insert_nonnull_get ht1 k v2 Hok1) as (e2 & Hg2 & Hv2).
  destruct (insert_nonnull_present ht1 k v2 e1 Hg1) as [Hde Hco].
  exists ht1, (insert_nonnull ht1 k v2).1, (insert_nonnull ht k v1).2,
    (insert_nonnull ht1 k v2).2, e2.
  split; [done|]. split; [apply hashtable_insert_nonnull|].
  split; [done|]. split; [done|]. split; [done|]. split; [done|].
  intros vs.
  assert (forall h, table_ok h ->
            is_Some (get_walk (table_get (table h)
                                 (hashtable_gethash (size h) k)) k) ->
            exists htn, run_operations (Some h) (Insert k <$> vs) = Some htn /\
                        different_entries htn = different_entries h /\
                        collisions htn = collisions h) as Hrep.
  { induction vs as [|v vs IH]; intros h Hh [e He].
    - by exists h.
    - rewrite fmap_cons, run_operations_cons, run_operation_insert.
      destruct (insert_nonnull_get h k v Hh) as (e' & He' & _).
      destruct (IH (insert_nonnull h k v).1) as (htn & Hrun & Hd & Hc).
      { by apply insert_nonnull_table_ok. }
      { by exists e'. }
      destruct (insert_nonnull_present h k v e He) as [Hd' Hc'].
      exists htn. split; [done|]. split; congruence. }
  apply Hrep; [done|by exists e1].
Qed.

(** C7: [hashtable_newhashtable] returns NULL exactly when [size < 2] (so
    for 1 but not for 2); otherwise the table it returns has [size] buckets,
    all of them empty, and both counters are zero. *)
Theorem newhashtable_spec sz :
  (hashtable_newhashtable sz = None <-> sz < 2) /\
  match hashtable_newhashtable sz with
  | Some ht =>
      size ht = sz /\ length (table ht) = Z.to_nat sz /\
      Forall (fun c => c = []) (table ht) /\
      different_entries ht = 0 /\ collisions ht = 0
  | None => True
  end /\
  hashtable_newhashtable 1 = None /\
  is_Some (hashtable_newhashtable 2).
Proof.
  unfold hashtable_newhashtable. split; [|split; [|split]].
  - destruct (Z.ltb_spec sz 2); split; (done || lia).
  - destruct (Z.ltb_spec sz 2); [done|]. simpl.
    split; [done|]. split; [by rewrite length_replicate|].
    split; [|done]. by apply Forall_replicate.
  - done.
  - by eexists.
Qed.

(** C8: with a NULL key, [hashtable_insert] and [hashtable_get] return NULL
    and [hashtable_delete] returns 0, whatever the table argument; the table
    (buckets, chains and both counters) is left as it was. *)
Theorem null_key_rejected (htable : option hashtable) v :
  hashtable_insert htable None v = (htable, None) /\
  hashtable_delete htable None = (htable, 0) /\
  hashtable_get htable None = None.
Proof. destruct htable as [ht|]; repeat split. Qed.

(** C9: [hashtable_insert] writes to the bucket array only at index
    [hashtable_gethash (size ht) k]: the number of buckets is unchanged and
    every bucket at another index holds the same chain, entry for entry, as
    before the call. *)
Theorem insert_frame ht k v :
  table_ok ht -> key_fits k ->
  exists ht' r,
    hashtable_insert (Some ht) (Some k) v = (Some ht', r) /\
    size ht' = size ht /\
    length (table ht') = length (table ht) /\
    forall j, j <> Z.to_nat (hashtable_gethash (size ht) k) ->
              table ht' !! j = table ht !! j.
Proof.
  intros Hok _. rewrite hashtable_insert_nonnull.
  destruct (insert_nonnull_table ht k v) as [c' Ht].
  eexists _, _. split; [done|]. split; [apply insert_nonnull_size|].
  rewrite Ht. split; [apply table_set_length|].
  intros j Hj. unfold table_set. by apply list_lookup_insert_ne.
Qed.

(** C10: with a NULL table, every operation returns its failure value and
    there is no table to change: [hashtable_insert] and [hashtable_get]
    return NULL and [hashtable_delete] returns 0, whatever the key. *)
Theorem null_table_rejected (k : option string) v :
  hashtable_insert None k v = (None, None) /\
  hashtable_delete None k = (None, 0) /\
  hashtable_get None k = None.
Proof. repeat split. Qed.

(** C1, as the code has it: on a fresh table, after inserting [n] pairs
    whose keys are pairwise distinct (with [n] below 2^32),
    [different_entries + collisions] is [n], the number of entries stored,
    and [different_entries] alone is the number of non-empty buckets. *)
Theorem distinct_inserts_count sz ht0 kvs :
  is_uint sz -> hashtable_newhashtable sz = Some ht0 ->
  NoDup (keys_of kvs) ->
  Forall operation_ok (inserts kvs) ->
  Z.of_nat (length kvs) <= UINT_MAX ->
  exists ht,
    run_operations (Some ht0) (inserts kvs) = Some ht /\
    total_entries (table ht) = length kvs /\
    different_entries ht + collisions ht = Z.of_nat (length kvs) /\
    different_entries ht = Z.of_nat (nonempty_buckets (table ht)).
Proof.
  intros Hsz Hnew Hnd _ Hn.
  destruct (newhashtable_ok sz ht0 Hsz Hnew) as (Hok & Hco & _ & Hkeys & H0).
  destruct (run_inserts_total kvs ht0 Hok Hco Hnd) as (ht & Hrun & _ & [Hde Hc] & _ & HT).
  { intros x _. rewrite Hkeys. apply not_elem_of_nil. }
  rewrite H0 in HT. simpl in HT.
  exists ht. split; [done|]. split; [done|].
  pose proof (nonempty_le_total (table ht)) as Hle.
  rewrite to_uint_id in Hc by (unfold is_uint; lia). lia.
Qed.

(** X1, the parts of C3 that hold for every bucket count [m > 0]: the
    result is a bucket index, and the empty string hashes to 0. *)
Theorem gethash_index m k :
  0 < m ->
  0 <= hashtable_gethash m k < m /\ hashtable_gethash m "" = 0.
Proof. intros Hm. split; [by apply hashtable_gethash_range|done]. Qed.

(** X2, the fold of C3 while no step can wrap: when [33 * (m - 1) + 255]
    fits an [unsigned int] and the characters of the key have their ordinal
    as [int] value ([char] is unsigned, or the key is plain ASCII), the
    function computes the fold [h = (c + h * 33) mod m]. *)
Theorem gethash_is_horner_fold m k :
  0 < m -> 33 * (m - 1) + 255 <= UINT_MAX ->
  char_is_signed = false \/ ascii_only k ->
  hashtable_gethash m k = horner_hash m k.
Proof. intros Hm Hb Hk. apply gethash_loop_horner; (done || lia). Qed.

(** * Further properties of the operations *)

(** ** Lookups across a change of one bucket *)

Lemma has_key_eq k e : has_key k e <-> strcpy (key e) = strcpy k.
Proof. unfold has_key. apply strcmp_zero. Qed.

Lemma get_walk_app a b k :
  get_walk (a ++ b) k
  = match get_walk a k with Some e => Some e | None => get_walk b k end.
Proof.
  induction a as [|x a IH]; simpl; [done|].
  by destruct (strcmp (key x) k =? 0).
Qed.

Lemma get_walk_cons_skip x c k :
  ~ has_key k x -> get_walk (x :: c) k = get_walk c k.
Proof.
  unfold has_key. intros Hx. simpl.
  by destruct (Z.eqb_spec (strcmp (key x) k) 0).
Qed.

Lemma get_walk_skip pre x post k :
  ~ has_key k x -> get_walk (pre ++ x :: post) k = get_walk (pre ++ post) k.
Proof.
  intros Hx. rewrite !get_walk_app. by rewrite get_walk_cons_skip.
Qed.

Lemma get_walk_has_key c k e : get_walk c k = Some e -> has_key k e /\ e ∈ c.
Proof.
  intros (pre & post & -> & _ & He)%get_walk_inv. split; [done|].
  apply elem_of_app. right. by left.
Qed.

Lemma other_key_no_match k k' e :
  strcpy k' <> strcpy k -> has_key k e -> ~ has_key k' e.
Proof. rewrite !has_key_eq. congruence. Qed.

Lemma table_get_set_ne (tbl : list chain) h h' c :
  Z.to_nat h' <> Z.to_nat h ->
  table_get (table_set tbl h c) h' = table_get tbl h'.
Proof.
  intros Hne. unfold table_get, table_set.
  by rewrite list_lookup_insert_ne.
Qed.

Lemma table_get_eq (tbl : list chain) h h' :
  Z.to_nat h' = Z.to_nat h -> table_get tbl h' = table_get tbl h.
Proof. unfold table_get. by intros ->. Qed.

Lemma table_set_same (tbl : list chain) h :
  table_set tbl h (table_get tbl h) = tbl.
Proof.
  unfold table_set, table_get. apply list_insert_id'. intros Hlt.
  by destruct (lookup_lt_is_Some_2 tbl _ Hlt) as [x ->].
Qed.

(** What [hashtable_insert] does to the key's bucket, as lookups see it:
    the key is found afterwards, at the entry returned, and every other key
    is found or missed as before. *)
Lemma insert_nonnull_bucket ht k v :
  exists c' r,
    insert_nonnull ht k v
    = ({| size := size ht;
          different_entries := different_entries (insert_nonnull ht k v).1;
          collisions := collisions (insert_nonnull ht k v).1;
          table := table_set (table ht) (hashtable_gethash (size ht) k) c' |},
       Some r) /\
    get_walk c' k = Some r /\ val r = v /\ has_key k r /\
    (forall k', strcpy k' <> strcpy k ->
       get_walk c' k'
       = get_walk (table_get (table ht) (hashtable_gethash (size ht) k)) k') /\
    length c'
    = (length (table_get (table ht) (hashtable_gethash (size ht) k))
       + match get_walk (table_get (table ht)
                          (hashtable_gethash (size ht) k)) k with
         | Some _ => 0 | None => 1 end)%nat.
Proof.
  set (h := hashtable_gethash (size ht) k).
  destruct (chain_cases k (table_get (table ht) h))
    as [Hn|(pre & e & post & Hm)].
  - rewrite (get_walk_no_match k _ Hn).
    exists (table_get (table ht) h ++ [mk_entry (strcpy k) v]),
      (mk_entry (strcpy k) v).
    split; [|split; [|split; [done|split; [apply has_key_new|split]]]].
    + destruct (table_get (table ht) h) as [|y c] eqn:E.
      * by rewrite insert_nonnull_empty.
      * rewrite insert_nonnull_append by (fold h; by rewrite ?E).
        fold h. by rewrite E.
    + rewrite get_walk_app, (get_walk_no_match k _ Hn).
      apply (get_walk_first_match k _ [] _ []).
      split; [done|]. split; [constructor|apply has_key_new].
    + intros k' Hk'. rewrite get_walk_app.
      destruct (get_walk (table_get (table ht) h) k'); [done|].
      apply get_walk_cons_skip.
      apply (other_key_no_match k k' _ Hk'), has_key_new.
    + rewrite length_app. simpl. lia.
  - rewrite (get_walk_first_match k _ pre e post Hm).
    exists (pre ++ mk_entry (key e) v :: post), (mk_entry (key e) v).
    destruct Hm as (E & Hpre & He).
    split; [|split; [|split; [done|split; [done|split]]]].
    + by rewrite (insert_nonnull_found ht k v pre e post).
    + by apply (get_walk_first_match k _ pre _ post).
    + intros k' Hk'. fold h. rewrite E.
      rewrite !get_walk_skip; [done| |];
        by apply (other_key_no_match k k' _ Hk').
    + fold h. rewrite E, !length_app. simpl. lia.
Qed.

(** The same for [hashtable_delete]: the first entry carrying the key, if
    any, leaves the chain, and lookups of other keys are not affected. *)
Lemma delete_nonnull_bucket ht k :
  exists c',
    table (delete_nonnull ht k).1
    = table_set (table ht) (hashtable_gethash (size ht) k) c' /\
    size (delete_nonnull ht k).1 = size ht /\
    (forall k', strcpy k' <> strcpy k ->
       get_walk c' k'
       = get_walk (table_get (table ht) (hashtable_gethash (size ht) k)) k') /\
    match get_walk (table_get (table ht) (hashtable_gethash (size ht) k)) k with
    | Some e =>
        (delete_nonnull ht k).2 = delete_result e /\
        exists pre post,
          first_match k (table_get (table ht) (hashtable_gethash (size ht) k))
            pre e post /\ c' = pre ++ post
    | None =>
        delete_nonnull ht k = (ht, 0) /\
        c' = table_get (table ht) (hashtable_gethash (size ht) k)
    end.
Proof.
  set (h := hashtable_gethash (size ht) k).
  destruct (delete_shapes k (table_get (table ht) h))
    as [Hn|[(e & E & He)|[(e & n & post & E & He)|(p & pre & e & post & Hm)]]].
  - rewrite (get_walk_no_match k _ Hn), delete_nonnull_absent by done.
    exists (table_get (table ht) h). simpl.
    split; [by rewrite table_set_same|]. done.
  - assert (first_match k (table_get (table ht) h) [] e []) as Hm
      by (split; [done|split; [constructor|done]]).
    rewrite (get_walk_first_match k _ _ _ _ Hm).
    rewrite (delete_nonnull_sole ht k e) by done. exists []. simpl.
    split; [done|]. split; [done|]. split.
    + intros k' Hk'. fold h. rewrite E.
      symmetry. apply get_walk_cons_skip.
      by apply (other_key_no_match k k' _ Hk').
    + split; [done|]. by exists [], [].
  - assert (first_match k (table_get (table ht) h) [] e (n :: post)) as Hm
      by (split; [done|split; [constructor|done]]).
    rewrite (get_walk_first_match k _ _ _ _ Hm).
    rewrite (delete_nonnull_head ht k e n post) by done.
    exists (n :: post). simpl.
    split; [done|]. split; [done|]. split.
    + intros k' Hk'. fold h. rewrite E.
      symmetry. apply get_walk_cons_skip.
      by apply (other_key_no_match k k' _ Hk').
    + split; [done|]. by exists [], (n :: post).
  - rewrite (get_walk_first_match k _ _ _ _ Hm).
    rewrite (delete_nonnull_inner ht k p pre e post) by done.
    exists (p :: pre ++ post). simpl.
    split; [done|]. split; [done|]. split.
    + intros k' Hk'. fold h. destruct Hm as (E & _ & He). rewrite E.
      symmetry. apply (get_walk_skip (p :: pre)).
      by apply (other_key_no_match k k' _ Hk').
    + split; [done|]. by exists (p :: pre), post.
Qed.

(** ** Insert, lookup and delete together *)

(** X3: after [hashtable_insert] of [k] with [v], [hashtable_get] of [k]
    returns the very entry the insert returned; its value is [v] and its
    key is [k]. *)
Theorem insert_then_get ht k v :
  table_ok ht -> key_fits k ->
  exists ht' e,
    hashtable_insert (Some ht) (Some k) v = (Some ht', Some e) /\
    hashtable_get (Some ht') (Some k) = Some e /\
    val e = v /\ strcpy (key e) = strcpy k.
Proof.
  intros Hok _. pose proof (hash_index_lt ht k Hok) as Hlt.
  destruct (insert_nonnull_bucket ht k v) as (c' & r & Hi & Hg & Hv & Hk & _).
  rewrite hashtable_insert_nonnull, Hi. simpl.
  eexists _, r. split; [done|]. simpl.
  rewrite table_get_set by done.
  split; [done|]. split; [done|]. by apply has_key_eq.
Qed.

(** X4: [hashtable_insert] of [k] does not change what [hashtable_get]
    returns for any other key, present or not. *)
Theorem insert_keeps_other_keys ht k v k' :
  table_ok ht -> key_fits k -> strcpy k' <> strcpy k ->
  hashtable_get (hashtable_insert (Some ht) (Some k) v).1 (Some k')
  = hashtable_get (Some ht) (Some k').
Proof.
  intros Hok _ Hne. pose proof (hash_index_lt ht k Hok) as Hlt.
  destruct (insert_nonnull_bucket ht k v) as (c' & r & Hi & _ & _ & _ & Ho & _).
  rewrite hashtable_insert_nonnull, Hi. simpl.
  destruct (decide (Z.to_nat (hashtable_gethash (size ht) k')
                    = Z.to_nat (hashtable_gethash (size ht) k))) as [E|E].
  - rewrite (table_get_eq _ _ _ E), table_get_set by done.
    rewrite (table_get_eq _ _ _ E). by apply Ho.
  - by rewrite table_get_set_ne.
Qed.

(** X5: [hashtable_delete] of [k] does not change what [hashtable_get]
    returns for any other key. *)
Theorem delete_keeps_other_keys ht k k' :
  table_ok ht -> strcpy k' <> strcpy k ->
  hashtable_get (hashtable_delete (Some ht) (Some k)).1 (Some k')
  = hashtable_get (Some ht) (Some k').
Proof.
  intros Hok Hne. pose proof (hash_index_lt ht k Hok) as Hlt.
  destruct (delete_nonnull_bucket ht k) as (c' & Ht & Hs & Ho & _).
  rewrite hashtable_delete_nonnull. simpl. rewrite Ht, Hs.
  destruct (decide (Z.to_nat (hashtable_gethash (size ht) k')
                    = Z.to_nat (hashtable_gethash (size ht) k))) as [E|E].
  - rewrite (table_get_eq _ _ _ E), table_get_set by done.
    rewrite (table_get_eq _ _ _ E). by apply Ho.
  - by rewrite table_get_set_ne.
Qed.

(** X6: [hashtable_insert] adds one entry to the table when
    [hashtable_get] did not find the key, and none when it did. *)
Theorem insert_entry_count ht k v :
  table_ok ht -> key_fits k ->
  exists ht' r,
    hashtable_insert (Some ht) (Some k) v = (Some ht', r) /\
    total_entries (table ht')
    = (total_entries (table ht)
       + match hashtable_get (Some ht) (Some k) with
         | Some _ => 0 | None => 1 end)%nat.
Proof.
  intros Hok _. pose proof (hash_index_lt ht k Hok) as Hlt.
  destruct (insert_nonnull_bucket ht k v) as (c' & r & Hi & _ & _ & _ & _ & Hl).
  rewrite hashtable_insert_nonnull. eexists _, _. split; [done|].
  rewrite Hi. simpl.
  destruct (table_set_measures (table ht) (hashtable_gethash (size ht) k) c' Hlt)
    as [HT _].
  lia.
Qed.

(** X7: [hashtable_delete] returns the value of the entry [hashtable_get]
    finds for the key and takes one entry out of the table; when
    [hashtable_get] finds none it returns 0 and the table is as before. *)
Theorem delete_returns_lookup ht k :
  table_ok ht -> values_ok ht ->
  exists ht',
    hashtable_delete (Some ht) (Some k)
    = (Some ht', from_option val 0 (hashtable_get (Some ht) (Some k))) /\
    match hashtable_get (Some ht) (Some k) with
    | Some _ => S (total_entries (table ht')) = total_entries (table ht)
    | None => ht' = ht
    end.
Proof.
  intros Hok Hv. pose proof (hash_index_lt ht k Hok) as Hlt.
  destruct (delete_nonnull_bucket ht k) as (c' & Ht & _ & _ & Hc).
  rewrite hashtable_delete_nonnull. simpl.
  set (c := table_get (table ht) (hashtable_gethash (size ht) k)) in *.
  destruct (get_walk c k) as [e|] eqn:Hg.
  - destruct Hc as (Hr & pre & post & (E & _) & ->).
    exists (delete_nonnull ht k).1. simpl. split.
    + rewrite Hr. do 2 f_equal. apply to_uint_to_int.
      pose proof (values_ok_table_get ht (hashtable_gethash (size ht) k) Hv) as HF.
      fold c in HF. rewrite E in HF. apply Forall_app in HF as [_ HF].
      by inversion HF.
    + rewrite Ht.
      destruct (table_set_measures (table ht) (hashtable_gethash (size ht) k)
                  (pre ++ post) Hlt) as [HT _].
      fold c in HT. rewrite E in HT. rewrite !length_app in HT. simpl in HT. lia.
  - destruct Hc as (Hd & _). rewrite Hd. by exists ht.
Qed.

(** X8: inserting a key that [hashtable_get] does not find and deleting
    it again gives back the table as it was, counters included, and the
    delete returns the inserted value. *)
Theorem insert_delete_roundtrip ht k v :
  table_ok ht -> key_fits k -> is_uint v ->
  is_uint (different_entries ht) -> is_uint (collisions ht) ->
  hashtable_get (Some ht) (Some k) = None ->
  hashtable_delete (hashtable_insert (Some ht) (Some k) v).1 (Some k)
  = (Some ht, v).
Proof.
  intros Hok _ Hv Hde Hco Hg. pose proof (hash_index_lt ht k Hok) as Hlt.
  set (h := hashtable_gethash (size ht) k) in *.
  assert (no_match k (table_get (table ht) h)) as Hn.
  { destruct (chain_cases k (table_get (table ht) h))
      as [?|(pre & e & post & Hm)]; [done|].
    simpl in Hg. fold h in Hg.
    by rewrite (get_walk_first_match k _ pre e post Hm) in Hg. }
  assert (delete_result (mk_entry (strcpy k) v) = v) as Hres
    by (by apply to_uint_to_int).
  assert (forall x, is_uint x -> to_uint (to_uint (x + 1) - 1) = x) as Hwrap.
  { intros x Hx. rewrite to_uint_sub_l.
    replace (x + 1 - 1) with x by lia. by apply to_uint_id. }
  rewrite hashtable_insert_nonnull. cbn [fst].
  rewrite hashtable_delete_nonnull.
  destruct (table_get (table ht) h) as [|y c] eqn:E.
  - rewrite insert_nonnull_empty by done. fold h.
    rewrite (delete_nonnull_sole _ k (mk_entry (strcpy k) v)); simpl; fold h.
    + rewrite Hres, (Hwrap _ Hde). unfold table_set.
      rewrite list_insert_insert_eq. fold (table_set (table ht) h []).
      rewrite <- E, table_set_same. by destruct ht.
    + by rewrite table_get_set.
    + apply has_key_new.
  - rewrite insert_nonnull_append by (fold h; by rewrite ?E). fold h.
    rewrite E.
    rewrite (delete_nonnull_inner _ k y c (mk_entry (strcpy k) v) []);
      simpl; fold h.
    + rewrite Hres, (Hwrap _ Hco), app_nil_r. unfold table_set.
      rewrite list_insert_insert_eq. fold (table_set (table ht) h (y :: c)).
      rewrite <- E, table_set_same. by destruct ht.
    + rewrite table_get_set by done.
      split; [done|]. split; [done|apply has_key_new].
Qed.

Lemma delete_nonnull_table_ok ht k :
  table_ok ht -> table_ok (delete_nonnull ht k).1.
Proof.
  intros [Hs Hl]. destruct (delete_nonnull_bucket ht k) as (c' & Ht & Hsz & _).
  split; rewrite Hsz; [done|]. by rewrite Ht, table_set_length.
Qed.

(** X9: on a well-formed table, no sequence of inserts and deletes whose
    keys fit their buffer and whose values are [unsigned int]s resizes the
    table: the table afterwards is well formed, and [size] and the number
    of buckets are what they were. *)
Theorem run_operations_keeps_size ops : forall ht,
  table_ok ht -> Forall operation_ok ops ->
  exists ht',
    run_operations (Some ht) ops = Some ht' /\
    table_ok ht' /\
    size ht' = size ht /\ length (table ht') = length (table ht).
Proof.
  induction ops as [|o ops IH]; intros ht Hok Hops; [by exists ht|].
  apply Forall_cons in Hops as [_ Hops].
  rewrite run_operations_cons. destruct o as [k v|k].
  - rewrite run_operation_insert.
    destruct (IH (insert_nonnull ht k v).1) as (ht' & Hrun & Hok' & Hs & Hl);
      [by apply insert_nonnull_table_ok|done|].
    exists ht'. split; [done|]. split; [done|].
    rewrite Hs, Hl, insert_nonnull_size.
    destruct (insert_nonnull_table ht k v) as [c' ->].
    by rewrite table_set_length.
  - rewrite run_operation_delete.
    destruct (IH (delete_nonnull ht k).1) as (ht' & Hrun & Hok' & Hs & Hl);
      [by apply delete_nonnull_table_ok|done|].
    exists ht'. split; [done|]. split; [done|].
    destruct (delete_nonnull_bucket ht k) as (c' & Ht & Hsz & _).
    by rewrite Hs, Hl, Hsz, Ht, table_set_length.
Qed.

(** ** Keys of reachable tables *)

Lemma keys_ok_bucket ht h :
  keys_ok ht ->
  Forall (fun e => strcpy (key e) = key e /\ key_fits (key e) /\
                   Z.to_nat (hashtable_gethash (size ht) (key e)) = Z.to_nat h)
    (table_get (table ht) h) /\
  NoDup (key <$> table_get (table ht) h).
Proof.
  intros Hk. unfold table_get.
  destruct (table ht !! Z.to_nat h) as [c|] eqn:E; simpl.
  - by apply Hk.
  - split; constructor.
Qed.

Lemma keys_ok_table_set ht ht' h c' :
  keys_ok ht -> size ht' = size ht ->
  table ht' = table_set (table ht) h c' ->
  Forall (fun e => strcpy (key e) = key e /\ key_fits (key e) /\
                   Z.to_nat (hashtable_gethash (size ht) (key e)) = Z.to_nat h)
    c' ->
  NoDup (key <$> c') ->
  keys_ok ht'.
Proof.
  intros Hk Hs Ht HF HN i c Hl. rewrite Hs. rewrite Ht in Hl.
  unfold table_set in Hl.
  apply list_lookup_insert_Some in Hl as [(<- & <- & _)|(_ & Hl)]; [done|].
  by apply Hk.
Qed.

Lemma new_entry_ok m k :
  key_fits k ->
  strcpy (strcpy k) = strcpy k /\ key_fits (strcpy k) /\
  Z.to_nat (hashtable_gethash m (strcpy k)) = Z.to_nat (hashtable_gethash m k).
Proof.
  intros Hk. split; [apply strcpy_idem|]. split.
  - unfold key_fits, strlen in *. by rewrite strcpy_idem.
  - unfold hashtable_gethash. by rewrite gethash_loop_strcpy.
Qed.

Lemma insert_nonnull_keys_ok ht k v :
  table_ok ht -> key_fits k -> keys_ok ht -> keys_ok (insert_nonnull ht k v).1.
Proof.
  intros Hok Hfit Hk.
  set (h := hashtable_gethash (size ht) k).
  destruct (keys_ok_bucket ht h Hk) as [HF HN].
  pose proof (new_entry_ok (size ht) k Hfit) as Hnew. fold h in Hnew.
  destruct (chain_cases k (table_get (table ht) h))
    as [Hn|(pre & e & post & Hm)].
  - apply (keys_ok_table_set ht _ h
             (table_get (table ht) h ++ [mk_entry (strcpy k) v])); [done| | | |].
    + apply insert_nonnull_size.
    + destruct (table_get (table ht) h) as [|y c] eqn:E.
      * by rewrite insert_nonnull_empty.
      * rewrite insert_nonnull_append by (fold h; by rewrite ?E).
        simpl. fold h. by rewrite E.
    + apply Forall_app. split; [done|]. by constructor.
    + rewrite fmap_app. apply NoDup_app. split; [done|]. split.
      * intros x Hx Hin. apply list_elem_of_singleton in Hin. simpl in Hin.
        apply list_elem_of_fmap in Hx as (e & -> & He).
        apply (proj1 (list.Forall_forall _ _) Hn e He).
        apply has_key_eq.
        by destruct (proj1 (list.Forall_forall _ _) HF e He) as (-> & _).
      * apply NoDup_singleton.
  - apply (keys_ok_table_set ht _ h (pre ++ mk_entry (key e) v :: post));
      [done| | | |].
    + apply insert_nonnull_size.
    + by rewrite (insert_nonnull_found ht k v pre e post Hm).
    + destruct Hm as (E & _). rewrite E in HF.
      apply Forall_app in HF as [Hpre Hpost]. inversion Hpost; subst.
      apply Forall_app. split; [done|]. by constructor.
    + destruct Hm as (E & _). rewrite E in HN.
      by rewrite fmap_app in *.
Qed.

Lemma delete_nonnull_keys_ok ht k :
  table_ok ht -> keys_ok ht -> keys_ok (delete_nonnull ht k).1.
Proof.
  intros Hok Hk.
  set (h := hashtable_gethash (size ht) k).
  destruct (keys_ok_bucket ht h Hk) as [HF HN].
  destruct (delete_nonnull_bucket ht k) as (c' & Ht & Hs & _ & Hc). fold h in Ht, Hc.
  apply (keys_ok_table_set ht _ h c'); [done|done|done| |].
  - destruct (get_walk (table_get (table ht) h) k) as [e|].
    + destruct Hc as (_ & pre & post & (E & _) & ->). rewrite E in HF.
      apply Forall_app in HF as [Hpre Hpost]. inversion Hpost; subst.
      by apply Forall_app.
    + by destruct Hc as (_ & ->).
  - destruct (get_walk (table_get (table ht) h) k) as [e|].
    + destruct Hc as (_ & pre & post & (E & _) & ->). rewrite E in HN.
      rewrite fmap_app in *. simpl in HN.
      apply NoDup_app in HN as (H1 & H2 & H3). apply NoDup_cons in H3 as [_ H3].
      apply NoDup_app. split; [done|]. split; [|done].
      intros x Hx Hin. apply (H2 x Hx). by right.
    + by destruct Hc as (_ & ->).
Qed.

Lemma reachable_keys_ok ht : reachable ht -> keys_ok ht.
Proof.
  induction 1 as [sz ht Hsz Hnew|ht k v ht' Hr IH Hfit _ Hins
                 |ht k ht' Hr IH Hdel].
  - unfold hashtable_newhashtable in Hnew. destruct (sz <? 2); [done|].
    injection Hnew as <-. intros i c Hl. simpl in Hl.
    apply lookup_replicate in Hl as [-> _]. split; constructor.
  - rewrite hashtable_insert_nonnull in Hins. simpl in Hins.
    injection Hins as <-. apply insert_nonnull_keys_ok; [|done|done].
    by apply reachable_ok.
  - rewrite hashtable_delete_nonnull in Hdel. simpl in Hdel.
    injection Hdel as <-. apply delete_nonnull_keys_ok; [|done].
    by apply reachable_ok.
Qed.

Lemma get_walk_None k c : get_walk c k = None -> no_match k c.
Proof.
  intros Hg. destruct (chain_cases k c) as [?|(pre & e & post & Hm)]; [done|].
  by rewrite (get_walk_first_match k c pre e post Hm) in Hg.
Qed.

(** X10: in a table built through the interface every stored key is
    nul-free, fits its buffer and sits in the bucket it hashes to, and no
    two entries of the table carry the same key. *)
Theorem reachable_keys_unique ht :
  reachable ht ->
  keys_ok ht /\
  forall i j i' j' c c' e e',
    table ht !! i = Some c -> c !! j = Some e ->
    table ht !! i' = Some c' -> c' !! j' = Some e' ->
    strcpy (key e) = strcpy (key e') ->
    i = i' /\ j = j'.
Proof.
  intros Hr. pose proof (reachable_keys_ok ht Hr) as Hk. split; [done|].
  intros i j i' j' c c' e e' Hc He Hc' He' Hkey.
  destruct (Hk i c Hc) as [HF HN]. destruct (Hk i' c' Hc') as [HF' _].
  destruct (Forall_lookup_1 _ _ _ _ HF He) as (E1 & _ & <-).
  destruct (Forall_lookup_1 _ _ _ _ HF' He') as (E2 & _ & <-).
  assert (key e = key e') as Hkk by congruence.
  assert (Z.to_nat (hashtable_gethash (size ht) (key e))
          = Z.to_nat (hashtable_gethash (size ht) (key e'))) as Hi
    by (by rewrite Hkk).
  split; [done|]. rewrite <- Hi in Hc'.
  assert (c' = c) as -> by congruence.
  apply (NoDup_lookup _ j j' (key e) HN); rewrite list_lookup_fmap.
  - by rewrite He.
  - by rewrite He', Hkk.
Qed.

(** X11: in a table built through the interface, once [hashtable_delete]
    has run for a key, [hashtable_get] no longer finds it, and deleting it
    again returns 0 and changes nothing. *)
Theorem delete_then_get ht k :
  reachable ht ->
  exists ht' r,
    hashtable_delete (Some ht) (Some k) = (Some ht', r) /\
    hashtable_get (Some ht') (Some k) = None /\
    hashtable_delete (Some ht') (Some k) = (Some ht', 0).
Proof.
  intros Hr. destruct (reachable_ok ht Hr) as (Hok & _ & _).
  pose proof (reachable_keys_ok ht Hr) as Hk.
  pose proof (hash_index_lt ht k Hok) as Hlt.
  rewrite hashtable_delete_nonnull. eexists _, _. split; [done|].
  assert (hashtable_get (Some (delete_nonnull ht k).1) (Some k) = None) as Hg.
  { set (h := hashtable_gethash (size ht) k) in *.
    destruct (keys_ok_bucket ht h Hk) as [HF HN].
    destruct (delete_nonnull_bucket ht k) as (c' & Ht & Hs & _ & Hc).
    fold h in Ht, Hc. simpl. rewrite Ht, Hs. fold h.
    rewrite table_get_set by done.
    destruct (get_walk (table_get (table ht) h) k) as [e|] eqn:Hg.
    - destruct Hc as (_ & pre & post & (E & Hpre & He) & ->).
      apply get_walk_no_match. apply Forall_app. split; [done|].
      apply list.Forall_forall. intros x Hx Hkx.
      rewrite E in HF, HN. rewrite fmap_app in HN. simpl in HN.
      apply NoDup_app in HN as (_ & _ & HN). apply NoDup_cons in HN as [HN _].
      apply HN. apply list_elem_of_fmap. exists x. split; [|done].
      apply Forall_app in HF as [_ HF]. inversion HF as [|? ? (Ee & _) HFp]; subst.
      destruct (proj1 (list.Forall_forall _ _) HFp x Hx) as (Ex & _).
      apply has_key_eq in He, Hkx. congruence.
    - by destruct Hc as (_ & ->). }
  split; [done|].
  rewrite hashtable_delete_nonnull.
  rewrite (delete_nonnull_absent _ k); [done|].
  by apply get_walk_None.
Qed.

(** X12: in a table built through the interface, [hashtable_get] finds a
    key exactly when some entry of the table, in whatever bucket, carries
    it. *)
Theorem get_iff_stored ht k :
  reachable ht ->
  is_Some (hashtable_get (Some ht) (Some k))
  <-> strcpy k ∈ stored_keys (table ht).
Proof.
  intros Hr. pose proof (reachable_keys_ok ht Hr) as Hk. simpl. split.
  - intros [e He]. apply get_walk_has_key in He as [He Hin].
    apply has_key_eq in He. rewrite <- He.
    by eapply stored_keys_table_get.
  - unfold stored_keys. intros (e & He & Hin)%list_elem_of_fmap.
    apply list_elem_of_join in Hin as (c & Hin & Hc).
    apply list_elem_of_lookup in Hc as [i Hc].
    destruct (Hk i c Hc) as [HF _].
    destruct (proj1 (list.Forall_forall _ _) HF e Hin) as (En & _ & Hi).
    assert (hashtable_gethash (size ht) (key e) = hashtable_gethash (size ht) k)
      as Hh.
    { unfold hashtable_gethash.
      by rewrite <- (gethash_loop_strcpy _ (key e)), <- He, gethash_loop_strcpy. }
    rewrite Hh in Hi. unfold table_get. rewrite Hi, Hc. simpl.
    destruct (get_walk c k) as [x|] eqn:Hg; [by eexists|].
    apply get_walk_None in Hg.
    exfalso. apply (proj1 (list.Forall_forall _ _) Hg e Hin).
    by apply has_key_eq.
Qed.

(** X13: on a table just created every lookup misses and every delete
    returns 0 and leaves the table as it is. *)
Theorem fresh_table_is_empty sz ht k :
  hashtable_newhashtable sz = Some ht ->
  hashtable_get (Some ht) (Some k) = None /\
  hashtable_delete (Some ht) (Some k) = (Some ht, 0).
Proof.
  unfold hashtable_newhashtable. destruct (sz <? 2); [done|]. intros [= <-].
  assert (forall h, table_get (replicate (Z.to_nat sz) ([] : chain)) h = []) as E.
  { intros h. unfold table_get.
    destruct (replicate (Z.to_nat sz) [] !! Z.to_nat h) as [c|] eqn:Hl; [|done].
    by apply lookup_replicate in Hl as [-> _]. }
  split.
  - simpl. by rewrite E.
  - rewrite hashtable_delete_nonnull, delete_nonnull_absent; [done|].
    simpl. rewrite E. constructor.
Qed.

(** X14: in a table built through the interface [different_entries] never
    exceeds [size], both counters are [unsigned int]s, and
    [different_entries] is zero exactly when the table holds no entry. *)
Theorem reachable_counter_bounds ht :
  reachable ht ->
  0 <= different_entries ht <= size ht /\
  is_uint (collisions ht) /\
  (different_entries ht = 0 <-> total_entries (table ht) = 0%nat).
Proof.
  intros Hr. destruct (reachable_ok ht Hr) as ([Hs Hl] & [Hde Hco] & _).
  pose proof (nonempty_le_length (table ht)) as H1.
  pose proof (nonempty_le_total (table ht)) as H2.
  split; [lia|]. split; [rewrite Hco; apply to_uint_range|].
  rewrite Hde. split; [|lia]. intros H0.
  assert (nonempty_buckets (table ht) = 0%nat) as Hn by lia.
  clear -Hn. induction (table ht) as [|c t IH]; [done|].
  rewrite nonempty_buckets_cons in Hn. rewrite total_entries_cons.
  destruct c; simpl in *; [by apply IH|lia].
Qed.

(** ** The pretty printer *)

Lemma chain_text_app c1 c2 : chain_text (c1 ++ c2) = chain_text c1 ++ chain_text c2.
Proof. unfold chain_text. apply fmap_app. Qed.

Lemma table_get_drop (tbl : list chain) i :
  0 <= i -> (Z.to_nat i < length tbl)%nat ->
  drop (Z.to_nat i) tbl = table_get tbl i :: drop (Z.to_nat (i + 1)) tbl.
Proof.
  intros Hi Hlt. unfold table_get.
  destruct (lookup_lt_is_Some_2 tbl _ Hlt) as [c Hc]. rewrite Hc. simpl.
  replace (Z.to_nat (i + 1)) with (S (Z.to_nat i)) by lia.
  by apply drop_S.
Qed.

Lemma prettyprint_loop_entries ht pd n : forall i cn dots,
  0 <= i -> (Z.to_nat i + n = length (table ht))%nat ->
  mjoin (printed_entries <$> prettyprint_loop ht pd n i cn dots)
  = chain_text (mjoin (drop (Z.to_nat i) (table ht))).
Proof.
  induction n as [|n IH]; intros i cn dots Hi Hn.
  - rewrite drop_ge by lia. done.
  - rewrite table_get_drop by lia.
    assert (Z.to_nat (i + 1) + n = length (table ht))%nat as Hn' by lia.
    assert (0 <= i + 1) as Hi' by lia.
    simpl. destruct (table_get (table ht) i) as [|e next] eqn:E.
    + simpl.
      destruct ((i =? 0) || (i =? to_uint (size ht - 1))); simpl;
        [by apply IH|].
      destruct ((cn + 1 =? 1)
                || negb match table_get (table ht) (i + 1) with
                        | [] => true | _ :: _ => false end); simpl;
        [by apply IH|].
      destruct (negb dots); simpl; by apply IH.
    + simpl. rewrite (IH _ _ _ Hi' Hn').
      change (e :: next ++ mjoin (drop (Z.to_nat (i + 1)) (table ht)))
        with ((e :: next) ++ mjoin (drop (Z.to_nat (i + 1)) (table ht))).
      by rewrite chain_text_app.
Qed.

Lemma prettyprint_loop_chain_lines ht pd n : forall i0 cn dots pd' i es,
  ChainLine pd' i es ∈ prettyprint_loop ht pd n i0 cn dots
  <-> i0 <= i < i0 + Z.of_nat n /\ pd' = pd /\
      table_get (table ht) i <> [] /\
      es = chain_text (table_get (table ht) i).
Proof.
  induction n as [|n IH]; intros i0 cn dots pd' i es.
  - simpl. rewrite elem_of_nil. lia.
  - assert (forall cn' dots',
              ChainLine pd' i es ∈ prettyprint_loop ht pd n (i0 + 1) cn' dots'
              <-> i0 + 1 <= i < i0 + Z.of_nat (S n) /\ pd' = pd /\
                  table_get (table ht) i <> [] /\
                  es = chain_text (table_get (table ht) i)) as IH'.
    { intros. replace (i0 + Z.of_nat (S n)) with (i0 + 1 + Z.of_nat n) by lia.
      apply IH. }
    simpl prettyprint_loop.
    destruct (table_get (table ht) i0) as [|e next] eqn:E.
    + assert (ChainLine pd' i es ∈ prettyprint_loop ht pd n (i0 + 1) (cn + 1) dots
              <-> i0 <= i < i0 + Z.of_nat (S n) /\ pd' = pd /\
                  table_get (table ht) i <> [] /\
                  es = chain_text (table_get (table ht) i)) as Hskip.
      { rewrite IH'. split; [intros (? & ?); split; [lia|done]|].
        intros (Hr & Hp & Hne & He). split; [|done].
        destruct (decide (i = i0)) as [->|]; [by rewrite E in Hne|lia]. }
      assert (ChainLine pd' i es ∈ prettyprint_loop ht pd n (i0 + 1) (cn + 1) true
              <-> i0 <= i < i0 + Z.of_nat (S n) /\ pd' = pd /\
                  table_get (table ht) i <> [] /\
                  es = chain_text (table_get (table ht) i)) as Hskip'.
      { rewrite IH'. split; [intros (? & ?); split; [lia|done]|].
        intros (Hr & Hp & Hne & He). split; [|done].
        destruct (decide (i = i0)) as [->|]; [by rewrite E in Hne|lia]. }
      destruct ((i0 =? 0) || (i0 =? to_uint (size ht - 1))).
      { rewrite elem_of_cons, Hskip. split; [intros [?|?]; done|by right]. }
      destruct ((cn + 1 =? 1)
                || negb match table_get (table ht) (i0 + 1) with
                        | [] => true | _ :: _ => false end).
      { rewrite elem_of_cons, Hskip. split; [intros [?|?]; done|by right]. }
      destruct (negb dots); [|done].
      rewrite elem_of_cons, Hskip'. split; [intros [?|?]; done|by right].
    + rewrite elem_of_cons, IH'. split.
      * intros [[= -> -> ->]|(Hr & ?)]; [|split; [lia|done]].
        rewrite E. split; [lia|done].
      * intros (Hr & -> & Hne & ->).
        destruct (decide (i = i0)) as [->|]; [left; by rewrite E|right].
        split; [lia|done].
Qed.

Lemma prettyprint_loop_null_lines ht pd n : forall i0 cn dots pd' i,
  0 <= i0 -> 0 <= cn ->
  (cn = 0 <-> i0 = 0 \/ table_get (table ht) (i0 - 1) <> []) ->
  NullLine pd' i ∈ prettyprint_loop ht pd n i0 cn dots
  <-> i0 <= i < i0 + Z.of_nat n /\ pd' = pd /\
      table_get (table ht) i = [] /\
      (i = 0 \/ i = to_uint (size ht - 1) \/
       table_get (table ht) (i - 1) <> [] \/
       table_get (table ht) (i + 1) <> []).
Proof.
  induction n as [|n IH]; intros i0 cn dots pd' i Hi0 Hcn Hinv.
  - simpl. rewrite elem_of_nil. lia.
  - simpl prettyprint_loop.
    destruct (table_get (table ht) i0) as [|e next] eqn:E.
    + assert (forall dots',
                NullLine pd' i ∈ prettyprint_loop ht pd n (i0 + 1) (cn + 1) dots'
                <-> i0 + 1 <= i < i0 + Z.of_nat (S n) /\ pd' = pd /\
                    table_get (table ht) i = [] /\
                    (i = 0 \/ i = to_uint (size ht - 1) \/
                     table_get (table ht) (i - 1) <> [] \/
                     table_get (table ht) (i + 1) <> [])) as IH'.
      { intros. replace (i0 + Z.of_nat (S n)) with (i0 + 1 + Z.of_nat n) by lia.
        apply IH; [lia|lia|].
        replace (i0 + 1 - 1) with i0 by lia. rewrite E. split; [lia|].
        intros [?|?]; [lia|done]. }
      assert (forall P : Prop,
                (P <-> i = 0 \/ i = to_uint (size ht - 1) \/
                       table_get (table ht) (i - 1) <> [] \/
                       table_get (table ht) (i + 1) <> []) ->
                i = i0 -> P ->
                i0 <= i < i0 + Z.of_nat (S n) /\
                table_get (table ht) i = [] /\
                (i = 0 \/ i = to_uint (size ht - 1) \/
                 table_get (table ht) (i - 1) <> [] \/
                 table_get (table ht) (i + 1) <> [])) as Hhere.
      { intros P HP -> Hp. split; [lia|]. split; [done|]. by apply HP. }
      destruct (Z.eqb_spec i0 0) as [H0|H0]; simpl.
      { rewrite elem_of_cons, IH'. split.
        - intros [[= -> ->]|(? & ?)]; [|split; [lia|done]].
          split; [lia|]. split; [done|]. split; [done|]. by left.
        - intros (Hr & -> & He & Hc).
          destruct (decide (i = i0)) as [->|]; [by left|right].
          split; [lia|done]. }
      destruct (Z.eqb_spec i0 (to_uint (size ht - 1))) as [Hl|Hl]; simpl.
      { rewrite elem_of_cons, IH'. split.
        - intros [[= -> ->]|(? & ?)]; [|split; [lia|done]].
          split; [lia|]. split; [done|]. split; [done|]. right. by left.
        - intros (Hr & -> & He & Hc).
          destruct (decide (i = i0)) as [->|]; [by left|right].
          split; [lia|done]. }
      destruct (Z.eqb_spec (cn + 1) 1) as [H1|H1]; simpl.
      { assert (table_get (table ht) (i0 - 1) <> []) as Hprev.
        { destruct (proj1 Hinv) as [?|?]; [lia|done|done]. }
        rewrite elem_of_cons, IH'. split.
        - intros [[= -> ->]|(? & ?)]; [|split; [lia|done]].
          split; [lia|]. split; [done|]. split; [done|]. right. right. by left.
        - intros (Hr & -> & He & Hc).
          destruct (decide (i = i0)) as [->|]; [by left|right].
          split; [lia|done]. }
      assert (table_get (table ht) (i0 - 1) = []) as Hprev.
      { destruct (table_get (table ht) (i0 - 1)) eqn:Ep; [done|].
        assert (cn = 0) by (apply Hinv; by right). lia. }
      destruct (table_get (table ht) (i0 + 1)) as [|e' next'] eqn:En; simpl.
      { assert (NullLine pd' i ∈ prettyprint_loop ht pd n (i0 + 1) (cn + 1) true
                <-> NullLine pd' i
                    ∈ prettyprint_loop ht pd n (i0 + 1) (cn + 1) dots) as Hd
          by (by rewrite !IH').
        assert (NullLine pd' i ∈ prettyprint_loop ht pd n (i0 + 1) (cn + 1) dots
                <-> i0 <= i < i0 + Z.of_nat (S n) /\ pd' = pd /\
                    table_get (table ht) i = [] /\
                    (i = 0 \/ i = to_uint (size ht - 1) \/
                     table_get (table ht) (i - 1) <> [] \/
                     table_get (table ht) (i + 1) <> [])) as Hskip.
        { rewrite IH'. split; [intros (? & ?); split; [lia|done]|].
          intros (Hr & Hp & He & Hc). split; [|done].
          destruct (decide (i = i0)) as [->|]; [|lia].
          rewrite Hprev, En in Hc. destruct Hc as [?|[?|[?|?]]]; done. }
        destruct (negb dots); [|done].
        rewrite elem_of_cons, Hd, Hskip. split; [intros [?|?]; done|by right]. }
      rewrite elem_of_cons, IH'. split.
      * intros [[= -> ->]|(? & ?)]; [|split; [lia|done]].
        split; [lia|]. split; [done|]. split; [done|].
        right. right. right. by rewrite En.
      * intros (Hr & -> & He & Hc).
        destruct (decide (i = i0)) as [->|]; [by left|right].
        split; [lia|done].
    + rewrite elem_of_cons, IH; [|lia|lia|].
      * replace (i0 + 1 + Z.of_nat n) with (i0 + Z.of_nat (S n)) by lia. split.
        -- intros [?|(? & ?)]; [done|]. split; [lia|done].
        -- intros (Hr & Hp & He & Hc). right. split; [|done].
           destruct (decide (i = i0)) as [->|]; [by rewrite E in He|lia].
      * replace (i0 + 1 - 1) with i0 by lia. rewrite E. split; [by right|done].
Qed.

Lemma decimal_digits_fuel_spec f : forall n,
  0 <= n < 10 ^ Z.of_nat (S f) ->
  1 <= decimal_digits_fuel f n <= Z.of_nat (S f) /\
  n < 10 ^ decimal_digits_fuel f n /\
  (10 <= n -> 10 ^ (decimal_digits_fuel f n - 1) <= n).
Proof.
  induction f as [|f IH]; intros n Hn.
  - simpl in *. lia.
  - cbn [decimal_digits_fuel]. destruct (Z.ltb_spec n 10) as [Hlt|Hge].
    + split; [lia|]. split; [simpl; lia|lia].
    + assert (0 <= n / 10 < 10 ^ Z.of_nat (S f)) as Hq.
      { replace (Z.of_nat (S (S f))) with (Z.of_nat (S f) + 1) in Hn by lia.
        rewrite Z.pow_add_r, Z.pow_1_r in Hn by lia.
        split; [apply Z.div_pos; lia|]. apply Z.div_lt_upper_bound; lia. }
      destruct (IH (n / 10) Hq) as (Hd & Hup & Hlow).
      set (d := decimal_digits_fuel f (n / 10)) in *.
      split; [lia|]. split.
      * replace (1 + d) with (d + 1) by lia.
        rewrite Z.pow_add_r, Z.pow_1_r by lia.
        pose proof (Z.mul_div_le n 10). pose proof (Z.mod_pos_bound n 10).
        pose proof (Z.div_mod n 10). lia.
      * intros _. replace (1 + d - 1) with d by lia.
        destruct (Z.ltb_spec (n / 10) 10) as [Hs|Hb].
        -- assert (d = 1) as ->.
           { subst d. destruct f; cbn [decimal_digits_fuel]; [done|].
             by destruct (Z.ltb_spec (n / 10) 10); [|lia]. }
           simpl. lia.
        -- specialize (Hlow Hb).
           replace d with (d - 1 + 1) by lia.
           rewrite Z.pow_add_r, Z.pow_1_r by lia.
           pose proof (Z.mul_div_le n 10). lia.
Qed.

(** X15: the listing shows every stored entry once, bucket after bucket
    in ascending index and head to tail within a chain; a bucket line is
    printed for exactly the non-empty buckets, each under its own index and
    with its own chain. *)
Theorem prettyprint_shows_entries ht :
  table_ok ht ->
  mjoin (printed_entries <$> hashtable_prettyprint (Some ht))
  = chain_text (mjoin (table ht)) /\
  forall pd i es,
    ChainLine pd i es ∈ hashtable_prettyprint (Some ht)
    <-> 0 <= i < size ht /\ pd = padding_of (size ht) /\
        table_get (table ht) i <> [] /\
        es = chain_text (table_get (table ht) i).
Proof.
  intros [Hs Hl]. unfold hashtable_prettyprint. split.
  - rewrite fmap_app, join_app. simpl. rewrite app_nil_r.
    rewrite prettyprint_loop_entries by (simpl; lia). done.
  - intros pd i es. rewrite elem_of_app, prettyprint_loop_chain_lines.
    rewrite Z2Nat.id by lia. rewrite list_elem_of_singleton.
    split; [intros [?|?]; done|by left].
Qed.

(** X16: an empty bucket gets its own [NULL] line exactly when it is the
    first or the last bucket of the table or has a non-empty neighbour;
    every other empty bucket is left out of the listing. *)
Theorem prettyprint_null_lines ht pd i :
  table_ok ht ->
  NullLine pd i ∈ hashtable_prettyprint (Some ht)
  <-> 0 <= i < size ht /\ pd = padding_of (size ht) /\
      table_get (table ht) i = [] /\
      (i = 0 \/ i = size ht - 1 \/
       table_get (table ht) (i - 1) <> [] \/
       table_get (table ht) (i + 1) <> []).
Proof.
  intros [Hs Hl]. unfold hashtable_prettyprint.
  rewrite elem_of_app, list_elem_of_singleton.
  rewrite prettyprint_loop_null_lines; [|lia|lia|split; [by left|done]].
  rewrite Z2Nat.id by lia.
  rewrite (to_uint_id (size ht - 1)) by (unfold is_uint; lia).
  split; [intros [?|?]; done|by left].
Qed.

(** X17: for a bucket count that is an [unsigned int], the decimal text
    the printer formats has between 1 and 10 digits, and it is the number
    of digits of the count; so it fits [size_str[11]] with its nul, and
    [padding_size] is at most 11. *)
Theorem size_text_fits sz :
  is_uint sz ->
  1 <= decimal_digits sz <= 10 /\
  sz < 10 ^ decimal_digits sz /\
  (10 <= sz -> 10 ^ (decimal_digits sz - 1) <= sz) /\
  2 <= padding_of sz <= 11.
Proof.
  unfold is_uint, UINT_MAX. intros Hsz.
  destruct (decimal_digits_fuel_spec 10 sz) as (Hd & Hup & Hlow).
  { change (10 ^ Z.of_nat 11) with 100000000000. lia. }
  fold (decimal_digits sz) in *.
  assert (decimal_digits sz <= 10) as H10.
  { destruct (Z.le_gt_cases (decimal_digits sz) 10) as [?|Hgt]; [done|].
    assert (decimal_digits sz = 11) as E by lia.
    destruct (Z.le_gt_cases 10 sz) as [Hb|Hb].
    - specialize (Hlow Hb). rewrite E in Hlow.
      change (10 ^ (11 - 1)) with 10000000000 in Hlow. lia.
    - unfold decimal_digits in E. cbn [decimal_digits_fuel] in E.
      destruct (Z.ltb_spec sz 10); lia. }
  split; [lia|]. split; [done|]. split; [done|].
  unfold padding_of. rewrite to_uint_id; [lia|]. unfold is_uint, UINT_MAX. lia.
Qed.

Lemma prettyprint_loop_dots ht pd n : forall i0 cn dots d,
  0 <= i0 -> 0 <= cn ->
  (cn = 0 <-> i0 = 0 \/ table_get (table ht) (i0 - 1) <> []) ->
  DotsLine d ∈ prettyprint_loop ht pd n i0 cn dots
  <-> d = dots_of pd /\
      exists i, i0 <= i < i0 + Z.of_nat n /\ left_out ht i /\
                (dots = false \/
                 exists j, i0 <= j < i /\ table_get (table ht) j <> []).
Proof.
  induction n as [|n IH]; intros i0 cn dots d Hi0 Hcn Hinv.
  - simpl. rewrite elem_of_nil. split; [done|]. intros (_ & i & ? & _). lia.
  - simpl prettyprint_loop.
    destruct (table_get (table ht) i0) as [|e next] eqn:E.
    + assert (forall dots',
                DotsLine d ∈ prettyprint_loop ht pd n (i0 + 1) (cn + 1) dots'
                <-> d = dots_of pd /\
                    exists i, i0 + 1 <= i < i0 + Z.of_nat (S n) /\
                              left_out ht i /\
                              (dots' = false \/
                               exists j, i0 + 1 <= j < i /\
                                         table_get (table ht) j <> [])) as IH'.
      { intros. replace (i0 + Z.of_nat (S n)) with (i0 + 1 + Z.of_nat n) by lia.
        apply IH; [lia|lia|].
        replace (i0 + 1 - 1) with i0 by lia. rewrite E. split; [lia|].
        intros [?|?]; [lia|done]. }
      (* The bucket is empty: a witness of the right-hand side past [i0]
         can drop [i0] from both ranges. *)
      assert (forall dots',
                (exists i, i0 + 1 <= i < i0 + Z.of_nat (S n) /\ left_out ht i /\
                           (dots' = false \/
                            exists j, i0 + 1 <= j < i /\
                                      table_get (table ht) j <> []))
                -> exists i, i0 <= i < i0 + Z.of_nat (S n) /\ left_out ht i /\
                             (dots' = false \/
                              exists j, i0 <= j < i /\
                                        table_get (table ht) j <> [])) as Hup.
      { intros dots' (i & Hr & HL & Hc). exists i. split; [lia|]. split; [done|].
        destruct Hc as [?|(j & ? & ?)]; [by left|right].
        exists j. split; [lia|done]. }
      assert (forall dots',
                (~ left_out ht i0 \/ dots' = true) ->
                (exists i, i0 <= i < i0 + Z.of_nat (S n) /\ left_out ht i /\
                           (dots' = false \/
                            exists j, i0 <= j < i /\
                                      table_get (table ht) j <> []))
                -> exists i, i0 + 1 <= i < i0 + Z.of_nat (S n) /\
                             left_out ht i /\
                             (dots' = false \/
                              exists j, i0 + 1 <= j < i /\
                                        table_get (table ht) j <> [])) as Hdown.
      { intros dots' Hno (i & Hr & HL & Hc).
        assert (i <> i0) as Hne.
        { intros ->. destruct Hno as [Hno| ->]; [done|].
          destruct Hc as [?|(j & ? & _)]; [done|lia]. }
        exists i. split; [lia|]. split; [done|].
        destruct Hc as [?|(j & Hj & Hne')]; [by left|right].
        exists j. split; [|done].
        destruct (decide (j = i0)) as [->|]; [by rewrite E in Hne'|lia]. }
      assert (forall dots', (~ left_out ht i0 \/ dots' = true) ->
                DotsLine d ∈ prettyprint_loop ht pd n (i0 + 1) (cn + 1) dots'
                <-> d = dots_of pd /\
                    exists i, i0 <= i < i0 + Z.of_nat (S n) /\ left_out ht i /\
                              (dots' = false \/
                               exists j, i0 <= j < i /\
                                         table_get (table ht) j <> [])) as Hskip.
      { intros dots' Hno. rewrite IH'. split.
        - intros (? & ?). split; [done|]. by apply Hup.
        - intros (? & ?). split; [done|]. by apply Hdown. }
      destruct (Z.eqb_spec i0 0) as [H0|H0]; simpl.
      { rewrite elem_of_cons, Hskip; [|left; by intros (_ & ? & _)].
        split; [intros [?|?]; done|by right]. }
      destruct (Z.eqb_spec i0 (to_uint (size ht - 1))) as [Hl|Hl]; simpl.
      { rewrite elem_of_cons, Hskip; [|left; by intros (_ & _ & ? & _)].
        split; [intros [?|?]; done|by right]. }
      destruct (Z.eqb_spec (cn + 1) 1) as [H1|H1]; simpl.
      { assert (table_get (table ht) (i0 - 1) <> []) as Hprev.
        { destruct (proj1 Hinv) as [?|?]; [lia|done|done]. }
        rewrite elem_of_cons, Hskip; [|left; by intros (_ & _ & _ & ? & _)].
        split; [intros [?|?]; done|by right]. }
      assert (table_get (table ht) (i0 - 1) = []) as Hprev.
      { destruct (table_get (table ht) (i0 - 1)) eqn:Ep; [done|].
        assert (cn = 0) by (apply Hinv; by right). lia. }
      destruct (table_get (table ht) (i0 + 1)) as [|e' next'] eqn:En; simpl.
      * assert (left_out ht i0) as HL by (unfold left_out; by rewrite En).
        destruct dots; simpl.
        -- apply Hskip. by right.
        -- rewrite elem_of_cons, IH'. split.
           ++ intros [[= ->]|(-> & _)]; (split; [done|]);
                (exists i0; split; [lia|]; split; [done|by left]).
           ++ intros (-> & _). by left.
      * rewrite elem_of_cons, Hskip.
        -- split; [intros [?|?]; done|by right].
        -- left. intros (_ & _ & _ & _ & Hnext). by rewrite En in Hnext.
    + rewrite elem_of_cons, IH; [|lia|lia|].
      * replace (i0 + 1 + Z.of_nat n) with (i0 + Z.of_nat (S n)) by lia. split.
        -- intros [?|(-> & i & Hr & HL & _)]; [done|]. split; [done|].
           exists i. split; [lia|]. split; [done|]. right.
           exists i0. split; [lia|]. by rewrite E.
        -- intros (-> & i & Hr & HL & _). right. split; [done|].
           exists i. split; [|split; [done|by left]].
           destruct (decide (i = i0)) as [->|]; [|lia].
           destruct HL as (HL & _). by rewrite E in HL.
      * replace (i0 + 1 - 1) with i0 by lia. rewrite E. split; [by right|done].
Qed.

(** X18: the listing holds a truncation line exactly when some bucket is
    left out of it, that is, when some empty bucket other than the first
    and the last has two empty neighbours; the line then has
    [dots_of padding_size] dots. *)
Theorem prettyprint_truncation ht d :
  table_ok ht ->
  DotsLine d ∈ hashtable_prettyprint (Some ht)
  <-> d = dots_of (padding_of (size ht)) /\
      exists i, 0 <= i < size ht /\ left_out ht i.
Proof.
  intros [Hs Hl]. unfold hashtable_prettyprint.
  rewrite elem_of_app, list_elem_of_singleton.
  rewrite prettyprint_loop_dots; [|lia|lia|split; [by left|done]].
  rewrite Z2Nat.id by lia. split.
  - intros [(-> & i & Hr & HL & _)|?]; [|done]. split; [done|]. by exists i.
  - intros (-> & i & Hr & HL). left. split; [done|].
    exists i. split; [done|]. split; [done|by left].
Qed.

(** ** Counters past 2^32 entries *)

Lemma strcpy_key_of_pos p : strcpy (key_of_pos p) = key_of_pos p.
Proof. induction p as [q IH|q IH|]; simpl; by rewrite ?IH. Qed.

Lemma key_of_pos_inj p q : key_of_pos p = key_of_pos q -> p = q.
Proof.
  revert q. induction p as [p IH|p IH|]; intros [q|q|]; simpl; intros [=];
    try done; f_equal; by apply IH.
Qed.

Lemma key_of_pos_length n : forall p,
  Z.pos p < 2 ^ Z.of_nat n -> (String.length (key_of_pos p) <= n)%nat.
Proof.
  induction n as [|n IH]; intros p Hp.
  - simpl in Hp. lia.
  - replace (Z.of_nat (S n)) with (Z.of_nat n + 1) in Hp by lia.
    rewrite Z.pow_add_r, Z.pow_1_r in Hp by lia.
    destruct p as [q|q|]; simpl; [| |lia].
    + apply le_n_S, IH. lia.
    + apply le_n_S, IH. lia.
Qed.

Lemma key_of_pos_fits j :
  Z.of_nat j < 8589934592 -> key_fits (key_of_pos (Pos.of_succ_nat j)).
Proof.
  intros Hj. unfold key_fits, strlen. rewrite strcpy_key_of_pos.
  apply key_of_pos_length. rewrite Zpos_P_of_succ_nat.
  change (2 ^ Z.of_nat 64) with 18446744073709551616. lia.
Qed.

Lemma many_pairs_length n : length (many_pairs n) = n.
Proof. unfold many_pairs. by rewrite length_fmap, length_seq. Qed.

Lemma many_pairs_distinct n : NoDup (keys_of (many_pairs n)).
Proof.
  unfold keys_of, many_pairs. rewrite <- list_fmap_compose.
  apply NoDup_fmap_2_strong; [|apply NoDup_seq].
  intros x y _ _ Hxy. simpl in Hxy. rewrite !strcpy_key_of_pos in Hxy.
  apply key_of_pos_inj in Hxy. by apply SuccNat2Pos.inj.
Qed.

Lemma many_pairs_ok n :
  Z.of_nat n <= 8589934592 -> Forall operation_ok (inserts (many_pairs n)).
Proof.
  intros Hn. unfold inserts, many_pairs. rewrite <- list_fmap_compose.
  apply Forall_fmap, list.Forall_forall. intros j Hj.
  apply elem_of_seq in Hj. simpl. split.
  - apply key_of_pos_fits. lia.
  - unfold is_uint, UINT_MAX. lia.
Qed.

(** Inserting more than 2^32 + 1 distinct keys in a table of two buckets
    leaves [collisions] below the number of entries that are not the head
    of their chain. *)
Lemma counters_wrap n :
  UINT_MAX + 3 <= Z.of_nat n <= 8589934592 ->
  exists ht,
    run_operations (hashtable_newhashtable 2) (inserts (many_pairs n))
    = Some ht /\
    reachable ht /\
    total_entries (table ht) = n /\
    collisions ht
    <> Z.of_nat (total_entries (table ht))
       - Z.of_nat (nonempty_buckets (table ht)).
Proof.
  intros Hn.
  assert (is_uint 2) as H2 by (unfold is_uint, UINT_MAX; lia).
  destruct (hashtable_newhashtable 2) as [ht0|] eqn:Hnew; [|done].
  destruct (newhashtable_ok 2 ht0 H2 Hnew) as (Hok & Hco & _ & Hkeys & H0).
  destruct (run_inserts_total (many_pairs n) ht0 Hok Hco (many_pairs_distinct n))
    as (ht & Hrun & [_ Hlen] & [_ Hc] & Hsz & HT).
  { intros x _. rewrite Hkeys. apply not_elem_of_nil. }
  rewrite H0, many_pairs_length in HT. simpl in HT.
  exists ht. split; [done|]. split.
  { apply (reachable_run 2 ht0 (inserts (many_pairs n))); [done|done| |done].
    apply many_pairs_ok. lia. }
  split; [done|].
  assert (size ht0 = 2) as Hs0.
  { unfold hashtable_newhashtable in Hnew. simpl in Hnew. by injection Hnew as <-. }
  pose proof (nonempty_le_length (table ht)) as Hle.
  pose proof (to_uint_range
                (Z.of_nat (total_entries (table ht))
                 - Z.of_nat (nonempty_buckets (table ht)))) as Hr.
  rewrite <- Hc in Hr. rewrite Hlen, Hsz, Hs0 in Hle. rewrite HT. lia.
Qed.

End StringHashTable.

(** C3, the failing input: with 200000000 buckets and the key [zzzzzz] the
    sum of the last step, 4923721628, does not fit an [unsigned int]; the
    function returns 28754332, whether [char] is signed or not, where the
    fold of the specification gives 123721628. *)
Theorem gethash_wraps_on_large_table (char_is_signed : bool) :
  hashtable_gethash char_is_signed 200000000 "zzzzzz" = 28754332 /\
  horner_hash 200000000 "zzzzzz" = 123721628.
Proof. destruct char_is_signed; split; vm_compute; reflexivity. Qed.

(** * The theorems at concrete tables *)

(** The examples use plain ASCII keys, on which the signedness of [char]
    has no effect; they are run with signed [char]. *)

#[local] Ltac bounds :=
  unfold is_uint, key_fits, strlen, UINT_MAX; simpl; lia.

Lemma example_table_ok : table_ok example_table.
Proof. split; [unfold example_table; bounds|reflexivity]. Qed.

Lemma example_table_values : values_ok example_table.
Proof. repeat (constructor; try bounds). Qed.

Lemma example_operations_ok : Forall operation_ok example_operations.
Proof. repeat (constructor; try bounds). Qed.

Lemma example_table_reachable : reachable true example_table.
Proof.
  eapply (reachable_run true 2 _ example_operations).
  - bounds.
  - reflexivity.
  - apply example_operations_ok.
  - vm_compute. reflexivity.
Qed.

Lemma test_12_strings_distinct : NoDup (keys_of test_12_strings).
Proof.
  vm_compute.
  repeat (apply NoDup_cons; split;
          [rewrite ?elem_of_cons, elem_of_nil; intuition discriminate|]).
  apply NoDup_nil_2.
Qed.

Lemma test_12_strings_ok : Forall operation_ok (inserts test_12_strings).
Proof. repeat (constructor; try bounds). Qed.

(** [counter_invariant] on [example_table], reached by [example_operations]. *)
Lemma counter_invariant_witness :
  reachable true example_table /\
  Z.of_nat (total_entries (table example_table)) <= UINT_MAX /\
  collisions example_table
  = Z.of_nat (total_entries (table example_table))
    - Z.of_nat (nonempty_buckets (table example_table))
  /\ different_entries example_table
     = Z.of_nat (nonempty_buckets (table example_table))
  /\ Z.of_nat (total_entries (table example_table))
     = different_entries example_table + collisions example_table.
Proof.
  assert (Z.of_nat (total_entries (table example_table)) <= UINT_MAX) as Hb
    by bounds.
  exact (conj example_table_reachable
           (conj Hb (counter_invariant true example_table
                       example_table_reachable Hb))).
Defined.

(** [insert_three_cases] on [example_table] and the stored key [c]. *)
Lemma insert_three_cases_witness :
  table_ok example_table /\ key_fits "c" /\
  exists ht' r,
    hashtable_insert true (Some example_table) (Some "c"%string) 9
    = (Some ht', Some r) /\
    size ht' = size example_table.
Proof.
  assert (key_fits "c") as Hk by bounds.
  destruct (insert_three_cases true example_table "c" 9 example_table_ok Hk)
    as [(ht' & r & Hi & Hs & _) _].
  exact (conj example_table_ok
           (conj Hk (ex_intro _ ht' (ex_intro _ r (conj Hi Hs))))).
Defined.

(** [delete_cases] on [example_table] and the stored key [c]. *)
Lemma delete_cases_witness :
  table_ok example_table /\ values_ok example_table /\
  exists ht' r,
    hashtable_delete true (Some example_table) (Some "c"%string)
    = (Some ht', r).
Proof.
  destruct (delete_cases true example_table "c" example_table_ok
              example_table_values) as (ht' & r & Hd & _).
  exact (conj example_table_ok
           (conj example_table_values (ex_intro _ ht' (ex_intro _ r Hd)))).
Defined.

(** [insert_existing_updates] on [example_table] and the new key [e]. *)
Lemma insert_existing_updates_witness :
  table_ok example_table /\ key_fits "e" /\
  exists ht1 ht2 r1 r2 e,
    hashtable_insert true (Some example_table) (Some "e"%string) 5
    = (Some ht1, r1) /\
    hashtable_insert true (Some ht1) (Some "e"%string) 7 = (Some ht2, r2) /\
    hashtable_get true (Some ht2) (Some "e"%string) = Some e /\ val e = 7 /\
    different_entries ht2 = different_entries ht1 /\
    collisions ht2 = collisions ht1.
Proof.
  assert (key_fits "e") as Hk by bounds.
  destruct (insert_existing_updates true example_table "e" 5 7
              example_table_ok Hk)
    as (ht1 & ht2 & r1 & r2 & e & H1 & H2 & H3 & H4 & H5 & H6 & _).
  split; [exact example_table_ok|]. split; [exact Hk|].
  exists ht1, ht2, r1, r2, e. repeat split; assumption.
Defined.

(** [insert_frame] on [example_table] and the key [c]. *)
Lemma insert_frame_witness :
  table_ok example_table /\ key_fits "c" /\
  exists ht' r,
    hashtable_insert true (Some example_table) (Some "c"%string) 9
    = (Some ht', r) /\
    size ht' = size example_table /\
    length (table ht') = length (table example_table) /\
    forall j, j <> Z.to_nat (hashtable_gethash true (size example_table) "c") ->
              table ht' !! j = table example_table !! j.
Proof.
  assert (key_fits "c") as Hk by bounds.
  exact (conj example_table_ok
           (conj Hk (insert_frame true example_table "c" 9
                       example_table_ok Hk))).
Defined.

(** [distinct_inserts_count] on the twelve keys of [test_12_strings] and a
    table of size 16. *)
Lemma distinct_inserts_count_witness :
  is_uint 16 /\
  NoDup (keys_of test_12_strings) /\
  Forall operation_ok (inserts test_12_strings) /\
  exists ht0 ht,
    hashtable_newhashtable 16 = Some ht0 /\
    run_operations true (Some ht0) (inserts test_12_strings) = Some ht /\
    total_entries (table ht) = length test_12_strings /\
    different_entries ht + collisions ht
    = Z.of_nat (length test_12_strings) /\
    different_entries ht = Z.of_nat (nonempty_buckets (table ht)).
Proof.
  assert (is_uint 16) as Hsz by bounds.
  assert (Z.of_nat (length test_12_strings) <= UINT_MAX) as Hn by bounds.
  destruct (distinct_inserts_count true 16 _ test_12_strings Hsz eq_refl
              test_12_strings_distinct test_12_strings_ok Hn)
    as (ht & Hrun & HT & Hsum & Hde).
  split; [exact Hsz|]. split; [exact test_12_strings_distinct|].
  split; [exact test_12_strings_ok|].
  eexists _, ht. split; [reflexivity|]. repeat split; assumption.
Defined.

(** [gethash_index] on the first key of the program's test. *)
Lemma gethash_index_witness :
  0 < 16 /\
  0 <= hashtable_gethash true 16 "8ct4xaucod" < 16 /\
  hashtable_gethash true 16 "" = 0.
Proof.
  assert (0 < 16) as Hm by lia.
  exact (conj Hm (gethash_index true 16 "8ct4xaucod" Hm)).
Defined.

(** [gethash_is_horner_fold] on the first key of the program's test. *)
Lemma gethash_is_horner_fold_witness :
  0 < 16 /\ 33 * (16 - 1) + 255 <= UINT_MAX /\
  hashtable_gethash true 16 "8ct4xaucod" = horner_hash 16 "8ct4xaucod".
Proof.
  assert (0 < 16) as Hm by lia.
  assert (33 * (16 - 1) + 255 <= UINT_MAX) as Hb by bounds.
  assert (ascii_only "8ct4xaucod") as Hk
    by (cbv [ascii_only]; repeat (right; split; [reflexivity|]); exact I).
  exact (conj Hm (conj Hb (gethash_is_horner_fold true 16 "8ct4xaucod"
                             Hm Hb (or_intror Hk)))).
Defined.

(** C1 as stated fails on the program's own test: the twelve keys of
    [test_12_strings] are pairwise distinct, yet after inserting them in a
    table of size 16 [different_entries] is 8, with 4 collisions, not 12. *)
Lemma distinct_inserts_counterexample :
  exists ht,
    run_operations true (hashtable_newhashtable 16) (inserts test_12_strings)
    = Some ht /\
    NoDup (keys_of test_12_strings) /\
    length test_12_strings = 12%nat /\
    different_entries ht = 8 /\ collisions ht = 4 /\
    different_entries ht <> Z.of_nat (length test_12_strings).
Proof.
  eexists. split; [vm_compute; reflexivity|].
  split; [exact test_12_strings_distinct|]. simpl.
  repeat split; discriminate.
Qed.

(** * The further properties at concrete tables *)

Lemma example_table_keys_differ : strcpy "e" <> strcpy "c".
Proof. discriminate. Qed.

(** [insert_then_get] on [example_table] and the new key [e]. *)
Lemma insert_then_get_witness :
  table_ok example_table /\ key_fits "e" /\
  exists ht' e,
    hashtable_insert true (Some example_table) (Some "e"%string) 5
    = (Some ht', Some e) /\
    hashtable_get true (Some ht') (Some "e"%string) = Some e /\
    val e = 5 /\ strcpy (key e) = strcpy "e".
Proof.
  assert (key_fits "e") as Hk by bounds.
  exact (conj example_table_ok
           (conj Hk (insert_then_get true example_table "e" 5
                       example_table_ok Hk))).
Defined.

(** [insert_keeps_other_keys]: inserting [c] leaves the lookup of [e] as
    it was. *)
Lemma insert_keeps_other_keys_witness :
  table_ok example_table /\ key_fits "c" /\ strcpy "e" <> strcpy "c" /\
  hashtable_get true
    (hashtable_insert true (Some example_table) (Some "c"%string) 9).1
    (Some "e"%string)
  = hashtable_get true (Some example_table) (Some "e"%string).
Proof.
  assert (key_fits "c") as Hk by bounds.
  exact (conj example_table_ok
           (conj Hk (conj example_table_keys_differ
                       (insert_keeps_other_keys true example_table "c" 9 "e"
                          example_table_ok Hk example_table_keys_differ)))).
Defined.

(** [delete_keeps_other_keys]: deleting [c] leaves the lookup of [e] as it
    was. *)
Lemma delete_keeps_other_keys_witness :
  table_ok example_table /\ strcpy "e" <> strcpy "c" /\
  hashtable_get true
    (hashtable_delete true (Some example_table) (Some "c"%string)).1
    (Some "e"%string)
  = hashtable_get true (Some example_table) (Some "e"%string).
Proof.
  exact (conj example_table_ok
           (conj example_table_keys_differ
              (delete_keeps_other_keys true example_table "c" "e"
                 example_table_ok example_table_keys_differ))).
Defined.

(** [insert_entry_count] on [example_table] and the new key [e]. *)
Lemma insert_entry_count_witness :
  table_ok example_table /\ key_fits "e" /\
  exists ht' r,
    hashtable_insert true (Some example_table) (Some "e"%string) 5
    = (Some ht', r) /\
    total_entries (table ht')
    = (total_entries (table example_table)
       + match hashtable_get true (Some example_table) (Some "e"%string) with
         | Some _ => 0 | None => 1 end)%nat.
Proof.
  assert (key_fits "e") as Hk by bounds.
  exact (conj example_table_ok
           (conj Hk (insert_entry_count true example_table "e" 5
                       example_table_ok Hk))).
Defined.

(** [delete_returns_lookup] on [example_table] and the stored key [c]. *)
Lemma delete_returns_lookup_witness :
  table_ok example_table /\ values_ok example_table /\
  exists ht',
    hashtable_delete true (Some example_table) (Some "c"%string)
    = (Some ht',
       from_option val 0
         (hashtable_get true (Some example_table) (Some "c"%string))).
Proof.
  destruct (delete_returns_lookup true example_table "c" example_table_ok
              example_table_values) as (ht' & Hd & _).
  exact (conj example_table_ok
           (conj example_table_values (ex_intro _ ht' Hd))).
Defined.

(** [insert_delete_roundtrip] on [example_table] and the new key [e]. *)
Lemma insert_delete_roundtrip_witness :
  table_ok example_table /\ key_fits "e" /\ is_uint 5 /\
  hashtable_get true (Some example_table) (Some "e"%string) = None /\
  hashtable_delete true
    (hashtable_insert true (Some example_table) (Some "e"%string) 5).1
    (Some "e"%string)
  = (Some example_table, 5).
Proof.
  assert (key_fits "e") as Hk by bounds.
  assert (is_uint 5) as Hv by bounds.
  assert (is_uint (different_entries example_table)) as Hd
    by (unfold example_table; bounds).
  assert (is_uint (collisions example_table)) as Hc
    by (unfold example_table; bounds).
  assert (hashtable_get true (Some example_table) (Some "e"%string) = None)
    as Hg by reflexivity.
  exact (conj example_table_ok
           (conj Hk (conj Hv (conj Hg
              (insert_delete_roundtrip true example_table "e" 5
                 example_table_ok Hk Hv Hd Hc Hg))))).
Defined.

(** [reachable_keys_unique] on [example_table]. *)
Lemma reachable_keys_unique_witness :
  reachable true example_table /\ keys_ok true example_table.
Proof.
  exact (conj example_table_reachable
           (proj1 (reachable_keys_unique true example_table
                     example_table_reachable))).
Defined.

(** [delete_then_get] on [example_table] and the stored key [c]. *)
Lemma delete_then_get_witness :
  reachable true example_table /\
  exists ht' r,
    hashtable_delete true (Some example_table) (Some "c"%string)
    = (Some ht', r) /\
    hashtable_get true (Some ht') (Some "c"%string) = None /\
    hashtable_delete true (Some ht') (Some "c"%string) = (Some ht', 0).
Proof.
  exact (conj example_table_reachable
           (delete_then_get true example_table "c" example_table_reachable)).
Defined.

(** [get_iff_stored] on [example_table] and the stored key [c]. *)
Lemma get_iff_stored_witness :
  reachable true example_table /\
  (is_Some (hashtable_get true (Some example_table) (Some "c"%string))
   <-> strcpy "c" ∈ stored_keys (table example_table)).
Proof.
  exact (conj example_table_reachable
           (get_iff_stored true example_table "c" example_table_reachable)).
Defined.

(** [fresh_table_is_empty] on a new table of two buckets. *)
Lemma fresh_table_is_empty_witness :
  hashtable_get true (hashtable_newhashtable 2) (Some "a"%string) = None /\
  hashtable_delete true (hashtable_newhashtable 2) (Some "a"%string)
  = (hashtable_newhashtable 2, 0).
Proof. exact (fresh_table_is_empty true 2 _ "a" eq_refl). Defined.

(** [reachable_counter_bounds] on [example_table]. *)
Lemma reachable_counter_bounds_witness :
  reachable true example_table /\
  0 <= different_entries example_table <= size example_table /\
  is_uint (collisions example_table) /\
  (different_entries example_table = 0
   <-> total_entries (table example_table) = 0%nat).
Proof.
  exact (conj example_table_reachable
           (reachable_counter_bounds true example_table
              example_table_reachable)).
Defined.

(** [prettyprint_shows_entries] on [example_table]. *)
Lemma prettyprint_shows_entries_witness :
  table_ok example_table /\
  mjoin (printed_entries <$> hashtable_prettyprint (Some example_table))
  = chain_text (mjoin (table example_table)).
Proof.
  exact (conj example_table_ok
           (proj1 (prettyprint_shows_entries example_table example_table_ok))).
Defined.

Lemma fresh_table_16_ok : table_ok fresh_table_16.
Proof. split; [unfold fresh_table_16; bounds|reflexivity]. Qed.

(** [prettyprint_null_lines] on a new table of 16 buckets: bucket 0, the
    first one, has its [NULL] line, and bucket 5, empty between two empty
    buckets, has none. *)
Lemma prettyprint_null_lines_witness :
  table_ok fresh_table_16 /\
  NullLine 3 0 ∈ hashtable_prettyprint (Some fresh_table_16) /\
  NullLine 3 5 ∉ hashtable_prettyprint (Some fresh_table_16).
Proof.
  split; [exact fresh_table_16_ok|]. split.
  - apply (proj2 (prettyprint_null_lines fresh_table_16 3 0 fresh_table_16_ok)).
    split; [simpl; lia|]. split; [reflexivity|]. split; [reflexivity|].
    left. reflexivity.
  - intros Hin.
    apply (proj1 (prettyprint_null_lines fresh_table_16 3 5 fresh_table_16_ok))
      in Hin.
    destruct Hin as (_ & _ & _ & [H|[H|[H|H]]]).
    + discriminate H.
    + discriminate H.
    + apply H. reflexivity.
    + apply H. reflexivity.
Defined.

(** [size_text_fits] on the bucket count of the program's second test. *)
Lemma size_text_fits_witness :
  is_uint 262144 /\
  1 <= decimal_digits 262144 <= 10 /\
  262144 < 10 ^ decimal_digits 262144 /\
  (10 <= 262144 -> 10 ^ (decimal_digits 262144 - 1) <= 262144) /\
  2 <= padding_of 262144 <= 11.
Proof.
  assert (is_uint 262144) as Hsz by bounds.
  exact (conj Hsz (size_text_fits 262144 Hsz)).
Defined.

(** [prettyprint_truncation] on a new table of 16 buckets, where bucket 1
    is left out and the listing has its truncation line, and on
    [example_table], where no bucket is left out and it has none. *)
Lemma prettyprint_truncation_witness :
  table_ok fresh_table_16 /\
  DotsLine 3 ∈ hashtable_prettyprint (Some fresh_table_16) /\
  table_ok example_table /\
  DotsLine 3 ∉ hashtable_prettyprint (Some example_table).
Proof.
  split; [exact fresh_table_16_ok|]. split.
  - apply (proj2 (prettyprint_truncation fresh_table_16 3 fresh_table_16_ok)).
    split; [reflexivity|]. exists 1. split; [simpl; lia|].
    split; [reflexivity|]. split; [discriminate|]. split; [discriminate|].
    split; reflexivity.
  - split; [exact example_table_ok|]. intros Hin.
    apply (proj1 (prettyprint_truncation example_table 3 example_table_ok))
      in Hin.
    destruct Hin as (_ & i & Hr & (_ & H0 & Hl & _)).
    simpl in Hr. change (to_uint (size example_table - 1)) with 1 in Hl. lia.
Defined.

(** [run_operations_keeps_size] on [example_table] and a run of inserts
    followed by a delete. *)
Lemma run_operations_keeps_size_witness :
  table_ok example_table /\ Forall operation_ok example_operations_delete /\
  exists ht',
    run_operations true (Some example_table) example_operations_delete
    = Some ht' /\
    table_ok ht' /\
    size ht' = size example_table /\
    length (table ht') = length (table example_table).
Proof.
  assert (Forall operation_ok example_operations_delete) as Hops.
  { apply Forall_app. split; [exact example_operations_ok|].
    constructor; [exact I|constructor]. }
  exact (conj example_table_ok
           (conj Hops (run_operations_keeps_size true example_operations_delete
                         example_table example_table_ok Hops))).
Defined.

(** C2 as stated fails once the entries outnumber the [unsigned int]
    counter: inserting 2^32 + 2 pairwise distinct keys in a table of two
    buckets reaches a table of 2^32 + 2 entries where [collisions], an
    [unsigned int], is not the number of entries minus the number of
    non-empty buckets, which is at least 2^32. *)
Lemma counter_invariant_counterexample :
  exists ht,
    run_operations true (hashtable_newhashtable 2)
      (inserts (many_pairs (Z.to_nat 4294967298))) = Some ht /\
    reachable true ht /\
    total_entries (table ht) = Z.to_nat 4294967298 /\
    collisions ht
    <> Z.of_nat (total_entries (table ht))
       - Z.of_nat (nonempty_buckets (table ht)).
Proof.
  apply counters_wrap. rewrite Z2Nat.id by lia. unfold UINT_MAX. lia.
Qed.
